(** * client/rpc_stream.go: the client side of one RPC stream

    A shallow embedding of [rpcStream] and of its methods [Send], [Recv],
    [Error] and [Close].  Every method is a finite program over the
    primitive steps the Go code performs (mutex operations, the
    non-blocking test of the [closed] channel, reads and writes of [r.err],
    calls into the codec, the call of the release hook).  A program is run
    either alone, as one goroutine ([run]), or interleaved with others
    under an explicit schedule ([sched]).

    The [fmt.Printf] lines of the source write to standard output only
    (their codec argument, [r.codec.String()], is a name accessor); they
    take no part in the control flow and are left out of the embedding. *)

From Stdlib Require Import String List Bool Arith Lia.
Import ListNotations.
Local Open Scope string_scope.
Local Open Scope list_scope.

(** ** Go [error] values *)

(** Modelled from the spec: [errShutdown] is the "stream closed" error kind
    and [serverError] the "remote call failed" kind that carries the
    original message text; both are declared in package [client] outside
    rpc_stream.go.  [io_EOF] and [io_ErrUnexpectedEOF] are the two values
    of Go's package [io]; [codecError] stands for any other error value a
    codec hands back. *)
Inductive errval : Type :=
| errShutdown
| io_EOF
| io_ErrUnexpectedEOF
| serverError (s : string)
| codecError (s : string).

(** A value of the interface type [error]; [None] is [nil]. *)
Definition error : Type := option errval.

(** [err == io.EOF] *)
Definition is_io_EOF (e : error) : bool :=
  match e with
  | Some io_EOF => true
  | _ => false
  end.

(** ** Package codec: frames and the transport interface *)

Module codec.

(** Modelled from the spec: the frame type is one of Request, Response,
    Error (package [codec] is not part of the sources at hand). *)
Inductive MessageType : Type := Error | Request | Response.

(** Modelled from the spec: the wire-visible header fields of a frame.
    [Type_] and [Error_] are the Go fields [Type] and [Error]. *)
Record Message : Type := mkMessage {
  Id : string;
  Type_ : MessageType;
  Target : string;
  Method : string;
  Endpoint : string;
  Error_ : string
}.

(** [var resp codec.Message] *)
Definition zero : Message := mkMessage "" Error "" "" "" "".

(** Modelled from the spec: the transport contract of the interface
    [codec.Codec], over a codec whose state has type [C].  A value of
    type [interface{}] is an [option Payload], [None] being [nil].
    [ReadHeader] returns the header it stored through its pointer
    argument; [ReadBody] returns what its target holds afterwards. *)
Class Codec (Payload C : Type) : Type := {
  Write : Message -> option Payload -> C -> error * C;
  ReadHeader : MessageType -> C -> error * Message * C;
  ReadBody : option Payload -> C -> error * option Payload * C;
  Close : C -> error * C
}.

End codec.

(** The descriptor behind the interface [client.Request], reduced to the
    three accessors the stream calls. *)
Record Request : Type := mkRequest {
  Service : string;
  Method : string;
  Endpoint : string
}.

(** The state of a [sync.RWMutex]: free, held by one writer, or held by
    readers.  (That a waiting writer holds back new readers is left
    out.) *)
Inductive RWMutex : Type :=
| Free
| Writer
| Readers (n : nat).   (* [S n] readers hold the lock *)

Section Stream.

Context {Payload C : Type} `{TC : codec.Codec Payload C}.

(** The reserved end-of-stream error string, a constant of package
    [client] declared outside rpc_stream.go. *)
Variable lastStreamResponseError : string.

(** [interface{}] *)
Definition iface : Type := option Payload.

(** [type rpcStream struct].  [closed] is the channel of the same name:
    nothing is ever sent on it, so all that can be observed is whether
    it has been closed.  [codec] holds the state of the codec object the
    field points to.  The fields [response] and [context] are only
    returned by their getters and are left out; the [release] hook is
    observed through the trace below. *)
Record rpcStream : Type := mkStream {
  mu : RWMutex;
  id : string;
  closed : bool;
  err : error;
  request : Request;
  codec_ : C;
  sendEOS : bool
}.

(** What the collaborators of a stream see of it, oldest call first. *)
Inductive event : Type :=
| EvWrite (m : codec.Message) (body : iface)
| EvReadHeader (t : codec.MessageType)
| EvReadBody (target : iface)
| EvCodecClose
| EvRelease (e : error).

Record World : Type := mkWorld {
  strm : rpcStream;
  trace : list event
}.

Definition with_mu (m : RWMutex) (w : World) : World :=
  let r := strm w in
  mkWorld (mkStream m (id r) (closed r) (err r) (request r) (codec_ r) (sendEOS r))
          (trace w).

Definition with_err (e : error) (w : World) : World :=
  let r := strm w in
  mkWorld (mkStream (mu r) (id r) (closed r) e (request r) (codec_ r) (sendEOS r))
          (trace w).

Definition with_closed (b : bool) (w : World) : World :=
  let r := strm w in
  mkWorld (mkStream (mu r) (id r) b (err r) (request r) (codec_ r) (sendEOS r))
          (trace w).

(** One call into a collaborator: the codec moves to state [c] and the
    call is appended to the trace. *)
Definition called (ev : event) (c : C) (w : World) : World :=
  let r := strm w in
  mkWorld (mkStream (mu r) (id r) (closed r) (err r) (request r) c (sendEOS r))
          (trace w ++ [ev]).

Definition released (e : error) (w : World) : World :=
  mkWorld (strm w) (trace w ++ [EvRelease e]).

(** ** Primitive steps *)

Inductive action : Type -> Type :=
| Lock : action unit
| Unlock : action unit
| RLock : action unit
| RUnlock : action unit
| Load (X : Type) (field : rpcStream -> X) : action X
| StoreErr (e : error) : action unit          (* r.err = e *)
| CloseChan : action unit                     (* close(r.closed) *)
| CodecWrite (m : codec.Message) (body : iface) : action error
| CodecReadHeader (t : codec.MessageType) : action (error * codec.Message)
| CodecReadBody (target : iface) : action (error * iface)
| CodecClose : action error
| Release (e : error) : action unit.

Arguments Load {X} field.

Inductive outcome (A : Type) : Type :=
| Done (a : A) (w : World)
| Blocked      (* the goroutine waits for the mutex *)
| Panic.       (* unlock of an unlocked mutex, close of a closed channel *)

Arguments Done {A} a w.
Arguments Blocked {A}.
Arguments Panic {A}.

Definition exec {X : Type} (a : action X) (w : World) : outcome X :=
  match a in action T return outcome T with
  | Lock =>
      match mu (strm w) with
      | Free => Done tt (with_mu Writer w)
      | _ => Blocked
      end
  | Unlock =>
      match mu (strm w) with
      | Writer => Done tt (with_mu Free w)
      | _ => Panic
      end
  | RLock =>
      match mu (strm w) with
      | Free => Done tt (with_mu (Readers 0) w)
      | Readers n => Done tt (with_mu (Readers (S n)) w)
      | Writer => Blocked
      end
  | RUnlock =>
      match mu (strm w) with
      | Readers 0 => Done tt (with_mu Free w)
      | Readers (S n) => Done tt (with_mu (Readers n) w)
      | _ => Panic
      end
  | Load field => Done (field (strm w)) w
  | StoreErr e => Done tt (with_err e w)
  | CloseChan =>
      if closed (strm w) then Panic else Done tt (with_closed true w)
  | CodecWrite m body =>
      let '(e, c) := codec.Write m body (codec_ (strm w)) in
      Done e (called (EvWrite m body) c w)
  | CodecReadHeader t =>
      let '(e, resp, c) := codec.ReadHeader t (codec_ (strm w)) in
      Done (e, resp) (called (EvReadHeader t) c w)
  | CodecReadBody target =>
      let '(e, got, c) := codec.ReadBody target (codec_ (strm w)) in
      Done (e, got) (called (EvReadBody target) c w)
  | CodecClose =>
      let '(e, c) := codec.Close (codec_ (strm w)) in
      Done e (called EvCodecClose c w)
  | Release e => Done tt (released e w)
  end.

(** ** Programs *)

Inductive prog (A : Type) : Type :=
| Ret (a : A)
| Vis (X : Type) (a : action X) (k : X -> prog A).

Arguments Ret {A} a.
Arguments Vis {A X} a k.

Fixpoint bind {A B : Type} (p : prog A) (f : A -> prog B) : prog B :=
  match p with
  | Ret a => f a
  | Vis a k => Vis a (fun x => bind (k x) f)
  end.

Definition act {X : Type} (a : action X) : prog X := Vis a Ret.

(** One goroutine running alone. *)
Fixpoint run {A : Type} (p : prog A) (w : World) : outcome A :=
  match p with
  | Ret a => Done a w
  | Vis a k =>
      match exec a w with
      | Done x w' => run (k x) w'
      | Blocked => Blocked
      | Panic => Panic
      end
  end.

Notation "x <- p ;; k" := (bind p (fun x => k))
  (at level 61, p at next level, right associativity).
Notation "p ;; k" := (bind p (fun _ => k))
  (at level 61, right associativity).

(** [defer d] at the head of a function body: [d] runs when the body
    returns. *)
Definition defer {A : Type} (d : prog unit) (body : prog A) : prog A :=
  a <- body ;; d ;; Ret a.

(** [func (r *rpcStream) isClosed() bool] *)
Definition isClosed : prog bool := act (Load closed).

(** The header [Send] and [Close] put on an outgoing frame. *)
Definition frame (r : rpcStream) (t : codec.MessageType) (e : string)
  : codec.Message :=
  codec.mkMessage (id r) t (Service (request r)) (Method (request r))
                  (Endpoint (request r)) e.

(** [func (r *rpcStream) Send(msg interface{}) error] *)
Definition Send (msg : iface) : prog error :=
  act Lock ;;
  defer (act Unlock)
    (c <- isClosed ;;
     if c then
       act (StoreErr (Some errShutdown)) ;;
       Ret (Some errShutdown)
     else
       r <- act (Load (fun r => r)) ;;
       let req := frame r codec.Request "" in
       e <- act (CodecWrite req msg) ;;
       match e with
       | Some _ => act (StoreErr e) ;; Ret e
       | None => Ret None
       end).

(** The two arms of the [switch] in [Recv], up to the end of the
    [switch]; the result is what the caller's message holds then. *)
Definition Recv_error_frame (msg : iface) (resp : codec.Message) : prog iface :=
  (if negb (String.eqb (codec.Error_ resp) lastStreamResponseError) then
     act (StoreErr (Some (serverError (codec.Error_ resp))))
   else
     act (StoreErr (Some io_EOF))) ;;
  act Unlock ;;
  b <- act (CodecReadBody None) ;;
  act Lock ;;
  match fst b with
  | Some _ => act (StoreErr (fst b)) ;; Ret msg
  | None => Ret msg
  end.

Definition Recv_data_frame (msg : iface) : prog iface :=
  act Unlock ;;
  b <- act (CodecReadBody msg) ;;
  act Lock ;;
  match fst b with
  | Some _ => act (StoreErr (fst b)) ;; Ret (snd b)
  | None => Ret (snd b)
  end.

(** [Recv] from the [r.Lock()] that follows the header read to its
    [return]; [h] is what [ReadHeader] gave. *)
Definition Recv_after_header (msg : iface) (h : error * codec.Message)
  : prog (error * iface) :=
  let '(e, resp) := h in
  match e with
  | Some _ =>
      unexpected <- (if is_io_EOF e
                     then c <- isClosed ;; Ret (negb c)
                     else Ret false) ;;
      if unexpected then
        act (StoreErr (Some io_ErrUnexpectedEOF)) ;;
        Ret (Some io_ErrUnexpectedEOF, msg)
      else
        act (StoreErr e) ;;
        Ret (e, msg)
  | None =>
      m <- (if (0 <? String.length (codec.Error_ resp))%nat
            then Recv_error_frame msg resp
            else Recv_data_frame msg) ;;
      e' <- act (Load err) ;;
      Ret (e', m)
  end.

(** [func (r *rpcStream) Recv(msg interface{}) error]; the second
    component is what the caller's message holds on return. *)
Definition Recv (msg : iface) : prog (error * iface) :=
  act Lock ;;
  defer (act Unlock)
    (c <- isClosed ;;
     if c then
       act (StoreErr (Some errShutdown)) ;;
       Ret (Some errShutdown, msg)
     else
       act Unlock ;;
       h <- act (CodecReadHeader codec.Response) ;;
       act Lock ;;
       Recv_after_header msg h).

(** [func (r *rpcStream) Error() error] *)
Definition Error : prog error :=
  act RLock ;;
  defer (act RUnlock) (act (Load err)).

(** [func (r *rpcStream) Close() error] *)
Definition Close : prog error :=
  act Lock ;;
  c <- isClosed ;;
  if c then
    act Unlock ;;
    Ret None
  else
    act CloseChan ;;
    act Unlock ;;
    r <- act (Load (fun r => r)) ;;
    (if sendEOS r then
       act (CodecWrite (frame r codec.Error lastStreamResponseError) None) ;;
       Ret tt
     else Ret tt) ;;
    e <- act CodecClose ;;
    last <- Error ;;
    act (Release last) ;;
    Ret e.

(** ** Calls, one after the other and interleaved *)

Inductive call : Type :=
| CallSend (msg : iface)
| CallRecv (msg : iface)
| CallError
| CallClose.

(** A call as its caller sees it: the [error] it returns. *)
Definition perform (c : call) : prog error :=
  match c with
  | CallSend msg => Send msg
  | CallRecv msg => r <- Recv msg ;; Ret (fst r)
  | CallError => Error
  | CallClose => Close
  end.

(** One goroutine making the calls in order; the result lists what each
    call returned. *)
Fixpoint run_calls (cs : list call) (w : World) : outcome (list error) :=
  match cs with
  | [] => Done [] w
  | c :: cs' =>
      match run (perform c) w with
      | Done e w1 =>
          match run_calls cs' w1 with
          | Done es w2 => Done (e :: es) w2
          | Blocked => Blocked
          | Panic => Panic
          end
      | Blocked => Blocked
      | Panic => Panic
      end
  end.

Fixpoint set_nth {A : Type} (i : nat) (x : A) (l : list A) : list A :=
  match l, i with
  | [], _ => []
  | _ :: l', 0 => x :: l'
  | y :: l', S i' => y :: set_nth i' x l'
  end.

(** Several goroutines, each inside one call, under a schedule: the
    schedule names, step after step, the goroutine that performs its
    next primitive step.  A goroutine that has returned is skipped; a
    schedule that picks a goroutine waiting for the mutex is one the
    runtime cannot produce and ends in [Blocked]. *)
Fixpoint sched (s : list nat) (ts : list (prog error)) (w : World)
  : outcome (list (prog error)) :=
  match s with
  | [] => Done ts w
  | i :: s' =>
      match nth_error ts i with
      | Some (Vis a k) =>
          match exec a w with
          | Done x w' => sched s' (set_nth i (k x) ts) w'
          | Blocked => Blocked
          | Panic => Panic
          end
      | _ => sched s' ts w
      end
  end.

(** [Returns o P]: the run returned, neither waiting for the mutex for
    ever nor panicking, and its result and final world satisfy [P]. *)
Definition Returns {A : Type} (o : outcome A) (P : A -> World -> Prop) : Prop :=
  match o with
  | Done a w => P a w
  | Blocked => False
  | Panic => False
  end.

Definition is_close (c : call) : bool :=
  match c with
  | CallClose => true
  | _ => false
  end.

Definition is_nil (e : error) : bool :=
  match e with
  | None => true
  | Some _ => false
  end.

(** [quiet msgs c]: the frames that successive calls [Recv msg], for the
    [msg] of [msgs], read from a codec in state [c] bring no error of
    their own: every header read succeeds, the error string of the header
    is empty or the end-of-stream string, and the body read that follows
    succeeds. *)
Fixpoint quiet (msgs : list iface) (c : C) : bool :=
  match msgs with
  | [] => true
  | msg :: rest =>
      let '(e, resp, c1) := codec.ReadHeader codec.Response c in
      let erroring := (0 <? String.length (codec.Error_ resp))%nat in
      let '(eb, _, c2) := codec.ReadBody (if erroring then None else msg) c1 in
      is_nil e
      && (negb erroring || String.eqb (codec.Error_ resp) lastStreamResponseError)
      && is_nil eb
      && quiet rest c2
  end.

(** The arguments the release hook was called with, oldest first. *)
Fixpoint releases (t : list event) : list error :=
  match t with
  | [] => []
  | EvRelease e :: t' => e :: releases t'
  | _ :: t' => releases t'
  end.

End Stream.

Arguments Done {Payload C A} a w.
Arguments Blocked {Payload C A}.
Arguments Panic {Payload C A}.
Arguments Ret {Payload C A} a.
Arguments Vis {Payload C A X} a k.
Arguments Load {Payload C X} field.
Arguments CallError {Payload}.
Arguments CallClose {Payload}.

(** ** Where a goroutine stands inside [Close]

    The steps of [Close] one by one, to follow several goroutines that
    are inside [Close] at the same time. *)

Section CloseStages.

Context {Payload C : Type} `{TC : codec.Codec Payload C}.
Variable lastStreamResponseError : string.

Local Abbreviation rpcStream := (rpcStream (C := C)).
Local Abbreviation World := (World (Payload := Payload) (C := C)).
Local Abbreviation prog := (prog (Payload := Payload) (C := C)).
Local Abbreviation outcome := (outcome (Payload := Payload) (C := C)).

(** The step a goroutine inside [Close] takes next, with the values it
    has read so far.  [Returned won e]: it has returned [e], and [won]
    tells whether it was the one that closed the channel. *)
Inductive close_pc : Type :=
| AtLock
| AtSelect
| AtUnlockClosed
| AtCloseChan
| AtUnlock
| AtLoad
| AfterLoad (r : rpcStream)
| AtCodecClose
| AtRLock (e : error)
| AtLoadErr (e : error)
| AtRUnlock (e last : error)
| AtRelease (e last : error)
| Returned (won : bool) (e : error).

Definition from_Release (e last : error) : prog error :=
  Vis (Release last) (fun _ => Ret e).

Definition from_RUnlock (e last : error) : prog error :=
  Vis RUnlock (fun _ => from_Release e last).

Definition from_LoadErr (e : error) : prog error :=
  Vis (Load err) (fun last => from_RUnlock e last).

Definition from_RLock (e : error) : prog error :=
  Vis RLock (fun _ => from_LoadErr e).

Definition from_CodecClose : prog error :=
  Vis CodecClose (fun e => from_RLock e).

Definition after_Load (r : rpcStream) : prog error :=
  bind (if sendEOS r then
          bind (act (CodecWrite (frame r codec.Error lastStreamResponseError) None))
               (fun _ => Ret tt)
        else Ret tt)
       (fun _ => from_CodecClose).

Definition from_Load : prog error :=
  Vis (Load (fun r => r)) after_Load.

Definition from_Unlock : prog error :=
  Vis Unlock (fun _ => from_Load).

Definition from_CloseChan : prog error :=
  Vis CloseChan (fun _ => from_Unlock).

Definition from_UnlockClosed : prog error :=
  Vis Unlock (fun _ => Ret None).

Definition from_Select : prog error :=
  Vis (Load closed)
      (fun c : bool => if c then from_UnlockClosed else from_CloseChan).

Definition from_Lock : prog error :=
  Vis Lock (fun _ => from_Select).

(** What is left of [Close] for a goroutine that stands at [pc]. *)
Definition close_prog (pc : close_pc) : prog error :=
  match pc with
  | AtLock => from_Lock
  | AtSelect => from_Select
  | AtUnlockClosed => from_UnlockClosed
  | AtCloseChan => from_CloseChan
  | AtUnlock => from_Unlock
  | AtLoad => from_Load
  | AfterLoad r => after_Load r
  | AtCodecClose => from_CodecClose
  | AtRLock e => from_RLock e
  | AtLoadErr e => from_LoadErr e
  | AtRUnlock e last => from_RUnlock e last
  | AtRelease e last => from_Release e last
  | Returned _ e => Ret e
  end.

Definition then_at {X : Type} (o : outcome X) (next : X -> close_pc)
  : outcome close_pc :=
  match o with
  | Done x w => Done (next x) w
  | Blocked => Blocked
  | Panic => Panic
  end.

(** One step of a goroutine that stands at [pc]. *)
Definition close_step (pc : close_pc) (w : World) : outcome close_pc :=
  match pc with
  | AtLock => then_at (exec Lock w) (fun _ => AtSelect)
  | AtSelect =>
      then_at (exec (Load closed) w)
              (fun c : bool => if c then AtUnlockClosed else AtCloseChan)
  | AtUnlockClosed => then_at (exec Unlock w) (fun _ => Returned false None)
  | AtCloseChan => then_at (exec CloseChan w) (fun _ => AtUnlock)
  | AtUnlock => then_at (exec Unlock w) (fun _ => AtLoad)
  | AtLoad => then_at (exec (Load (fun r => r)) w) AfterLoad
  | AfterLoad r =>
      if sendEOS r then
        then_at (exec (CodecWrite (frame r codec.Error lastStreamResponseError)
                                  None) w)
                (fun _ => AtCodecClose)
      else then_at (exec CodecClose w) AtRLock
  | AtCodecClose => then_at (exec CodecClose w) AtRLock
  | AtRLock e => then_at (exec RLock w) (fun _ => AtLoadErr e)
  | AtLoadErr e => then_at (exec (Load err) w) (AtRUnlock e)
  | AtRUnlock e last => then_at (exec RUnlock w) (fun _ => AtRelease e last)
  | AtRelease e last => then_at (exec (Release last) w) (fun _ => Returned true e)
  | Returned _ _ => Done pc w
  end.

(** [sched] on goroutines that are all inside [Close]. *)
Fixpoint sched_close (s : list nat) (pcs : list close_pc) (w : World)
  : outcome (list close_pc) :=
  match s with
  | [] => Done pcs w
  | i :: s' =>
      match nth_error pcs i with
      | Some pc =>
          match close_step pc w with
          | Done pc' w' => sched_close s' (set_nth i pc' pcs) w'
          | Blocked => Blocked
          | Panic => Panic
          end
      | None => sched_close s' pcs w
      end
  end.

(** How many goroutines stand at a place of a given kind. *)
Fixpoint count (f : close_pc -> bool) (pcs : list close_pc) : nat :=
  match pcs with
  | [] => 0
  | pc :: pcs' => (if f pc then 1 else 0) + count f pcs'
  end.

(** The goroutine holds the mutex as a writer. *)
Definition holds_w (pc : close_pc) : bool :=
  match pc with
  | AtSelect | AtUnlockClosed | AtCloseChan | AtUnlock => true
  | _ => false
  end.

(** The goroutine holds the mutex as a reader. *)
Definition holds_r (pc : close_pc) : bool :=
  match pc with
  | AtLoadErr _ | AtRUnlock _ _ => true
  | _ => false
  end.

(** The goroutine has closed the channel. *)
Definition has_won (pc : close_pc) : bool :=
  match pc with
  | AtUnlock | AtLoad | AfterLoad _ | AtCodecClose | AtRLock _ | AtLoadErr _
  | AtRUnlock _ _ | AtRelease _ _ | Returned true _ => true
  | _ => false
  end.

(** The goroutine has found the channel closed. *)
Definition has_lost (pc : close_pc) : bool :=
  match pc with
  | AtUnlockClosed | Returned false _ => true
  | _ => false
  end.

Definition at_CloseChan (pc : close_pc) : bool :=
  match pc with
  | AtCloseChan => true
  | _ => false
  end.

(** The goroutine has called the release hook. *)
Definition has_released (pc : close_pc) : bool :=
  match pc with
  | Returned true _ => true
  | _ => false
  end.

Definition has_returned (pc : close_pc) : bool :=
  match pc with
  | Returned _ _ => true
  | _ => false
  end.

(** The value the goroutine is about to hand to the release hook, if
    it has read it. *)
Definition carries (x : error) (pc : close_pc) : Prop :=
  match pc with
  | AtRUnlock _ last | AtRelease _ last => last = x
  | _ => True
  end.

(** What holds of goroutines inside [Close] at every moment, on a stream
    that was open, with last error [err0] and a hook called with
    [rel0] so far, when the first of them started: the mutex is held by
    those who took it and by no one else; one goroutine has closed the
    channel if the channel is closed, none otherwise; only then has any
    found it closed; the hook was called once more for each goroutine
    that has returned after closing the channel, with [err0]. *)
Definition close_inv (err0 : error) (rel0 : list error)
           (pcs : list close_pc) (w : World) : Prop :=
  err (strm w) = err0 /\
  ((mu (strm w) = Free /\ count holds_w pcs = 0 /\ count holds_r pcs = 0) \/
   (mu (strm w) = Writer /\ count holds_w pcs = 1 /\ count holds_r pcs = 0) \/
   (exists n, mu (strm w) = Readers n /\
              count holds_w pcs = 0 /\ count holds_r pcs = S n)) /\
  count has_won pcs = (if closed (strm w) then 1 else 0) /\
  (closed (strm w) = false -> count has_lost pcs = 0) /\
  (closed (strm w) = true -> count at_CloseChan pcs = 0) /\
  releases (trace w) = rel0 ++ repeat err0 (count has_released pcs) /\
  Forall (carries err0) pcs.

End CloseStages.

(** [p] is a call that has returned. *)
Definition is_Ret {Payload C A : Type} (p : prog (Payload := Payload) (C := C) A)
  : bool :=
  match p with
  | Ret _ => true
  | Vis _ _ => false
  end.

(** ** A scripted codec

    A transport double: every method answers with the next canned result
    of its list.  When a list is used up, [Write] and [Close] succeed,
    [ReadHeader] reports the end of the input and [ReadBody] succeeds and
    leaves its target as it is. *)
Record script : Type := mkScript {
  writes : list error;
  headers : list (error * codec.Message);
  bodies : list (error * option string);
  closes : list error
}.

Definition script_Write (m : codec.Message) (b : option string) (c : script)
  : error * script :=
  match writes c with
  | [] => (None, c)
  | e :: l => (e, mkScript l (headers c) (bodies c) (closes c))
  end.

Definition script_ReadHeader (t : codec.MessageType) (c : script)
  : error * codec.Message * script :=
  match headers c with
  | [] => (Some io_EOF, codec.zero, c)
  | (e, m) :: l => (e, m, mkScript (writes c) l (bodies c) (closes c))
  end.

Definition script_ReadBody (target : option string) (c : script)
  : error * option string * script :=
  match bodies c with
  | [] => (None, target, c)
  | (e, b) :: l =>
      (e, match target with None => None | Some _ => b end,
       mkScript (writes c) (headers c) l (closes c))
  end.

Definition script_Close (c : script) : error * script :=
  match closes c with
  | [] => (None, c)
  | e :: l => (e, mkScript (writes c) (headers c) (bodies c) l)
  end.

#[export] Instance script_Codec : codec.Codec string script := {
  codec.Write := script_Write;
  codec.ReadHeader := script_ReadHeader;
  codec.ReadBody := script_ReadBody;
  codec.Close := script_Close
}.

(** The end-of-stream string used in the examples. *)
Definition EOS : string := "EOS".

(** A response header that carries the error string [e]. *)
Definition response (e : string) : codec.Message :=
  codec.mkMessage "1" codec.Response "greeter" "Greeter.Stream" "Greeter.Stream" e.

(** A stream as it is when it has just been created: open, no error
    recorded, nothing called yet. *)
Definition fresh (eos : bool) (c : script) : World (Payload := string) :=
  mkWorld
    (mkStream Free "1" false None
              (mkRequest "greeter" "Greeter.Stream" "Greeter.Stream") c eos)
    [].

(** ** Canned transports for the examples *)

(** One response frame with body ["pong"]; every call succeeds. *)
Definition healthy : script :=
  mkScript [] [(None, response "")] [(None, Some "pong")] [].

(** The peer ends the stream and hangs up: one header with the
    end-of-stream string, then the end of the input. *)
Definition eos_then_hangup : script :=
  mkScript [] [(None, response EOS)] [] [].

(** The peer ends the stream, then two more frames arrive: a data frame
    and the end-of-stream string again. *)
Definition eos_then_more : script :=
  mkScript [] [(None, response EOS); (None, response ""); (None, response EOS)]
           [] [].

(** The first write fails; a response frame with body ["pong"] is there
    to be read. *)
Definition broken_pipe : script :=
  mkScript [Some (codecError "broken pipe")] [(None, response "")]
           [(None, Some "pong")] [].

(** The peer reports an application error and the read of the body of
    that frame fails. *)
Definition remote_error_short_read : script :=
  mkScript [] [(None, response "insufficient funds")]
           [(Some (codecError "short read"), None)] [].

(** The peer reports an application error; the body of the frame is read
    without error. *)
Definition remote_error : script :=
  mkScript [] [(None, response "insufficient funds")] [(None, None)] [].

(** The first write fails, then the peer reports an application error. *)
Definition broken_pipe_then_remote_error : script :=
  mkScript [Some (codecError "broken pipe")]
           [(None, response "insufficient funds")] [] [].

(** Nothing to read: the header read reports the end of the input. *)
Definition hangup : script := mkScript [] [] [] [].

(** A data frame arrives whose body cannot be decoded. *)
Definition bad_body : script :=
  mkScript [] [(None, response "")]
           [(Some (codecError "unexpected end of JSON input"), Some "par")] [].

(** Neither the end-of-stream frame can be written nor the codec
    closed. *)
Definition failing_close : script :=
  mkScript [Some (codecError "broken pipe")] [] []
           [Some (codecError "close failed")].

(** A stream whose channel [closed] has been closed. *)
Definition shut (c : script) : World (Payload := string) :=
  with_closed true (fresh true c).

(** * Properties *)

(** Case analysis on whatever variable a [match] of the goal inspects. *)
Ltac split_matches :=
  repeat match goal with
         | |- context [match ?x with _ => _ end] => is_var x; destruct x
         | |- context [if ?b then _ else _] => destruct b
         end.

(** Close a goal about the fields of the world a call leaves. *)
Ltac by_fields w :=
  destruct w as [[? ? ? ? ? ? ?] ?]; simpl in *; subst; simpl;
  split_matches; simpl; intuition (try congruence).

(** Open a world into its fields and compute. *)
Ltac open_world w :=
  destruct w as [[? ? ? ? ? ? ?] ?]; simpl in *; subst;
  unfold Send, Recv, Recv_after_header, Recv_error_frame, Recv_data_frame,
    Close, Error, defer, isClosed, act, frame in *;
  simpl in *.

Section StreamFacts.

Context {Payload C : Type} `{TC : codec.Codec Payload C}.
Variable lastStreamResponseError : string.

Local Abbreviation World := (World (Payload := Payload) (C := C)).
Local Abbreviation iface := (iface (Payload := Payload)).
Local Abbreviation Recv := (Recv lastStreamResponseError).
Local Abbreviation Close := (Close lastStreamResponseError).

Lemma run_bind {A B : Type} (p : prog A) (f : A -> prog B) (w : World) :
  run (bind p f) w =
  match run p w with
  | Done a w' => run (f a) w'
  | Blocked => Blocked
  | Panic => Panic
  end.
Proof.
  revert w; induction p as [a | X a k IH]; intros w; simpl.
  - reflexivity.
  - destruct (exec a w) as [x w' | |]; auto.
Qed.

(** ** What each method does, path by path *)

Lemma Send_closed (msg : iface) (w : World) :
  mu (strm w) = Free -> closed (strm w) = true ->
  run (Send msg) w = Done (Some errShutdown) (with_err (Some errShutdown) w).
Proof.
  intros Hm Hc; open_world w; reflexivity.
Qed.

Lemma Send_open (msg : iface) (w : World) (e : error) (c : C) :
  mu (strm w) = Free -> closed (strm w) = false ->
  codec.Write (frame (strm w) codec.Request "") msg (codec_ (strm w)) = (e, c) ->
  run (Send msg) w =
  Done e (let w1 := called (EvWrite (frame (strm w) codec.Request "") msg) c w in
          match e with Some _ => with_err e w1 | None => w1 end).
Proof.
  intros Hm Hc Hw; open_world w; rewrite Hw; destruct e; reflexivity.
Qed.

Lemma Recv_closed (msg : iface) (w : World) :
  mu (strm w) = Free -> closed (strm w) = true ->
  run (Recv msg) w =
  Done (Some errShutdown, msg) (with_err (Some errShutdown) w).
Proof.
  intros Hm Hc; open_world w; reflexivity.
Qed.

(** An open stream: [Recv] reads a header with the mutex released, takes
    the mutex again and goes on from there. *)
Lemma Recv_open (msg : iface) (w : World) (h : error * codec.Message) (c : C) :
  mu (strm w) = Free -> closed (strm w) = false ->
  codec.ReadHeader codec.Response (codec_ (strm w)) = (h, c) ->
  run (Recv msg) w =
  run (defer (act Unlock) (Recv_after_header lastStreamResponseError msg h))
      (with_mu Writer (called (EvReadHeader codec.Response) c w)).
Proof.
  intros Hm Hc Hh; open_world w.
  rewrite Hh; destruct h as [e resp]; reflexivity.
Qed.

(** The header read failed with [ev]. *)
Lemma after_header_failed (msg : iface) (ev : errval) (resp : codec.Message)
      (w : World) :
  run (Recv_after_header lastStreamResponseError msg (Some ev, resp)) w =
  let e := if is_io_EOF (Some ev) && negb (closed (strm w))
           then Some io_ErrUnexpectedEOF else Some ev in
  Done (e, msg) (with_err e w).
Proof.
  open_world w.
  destruct ev; simpl; try reflexivity.
  match goal with |- context [if negb ?b then _ else _] => destruct b end;
    reflexivity.
Qed.

(** The header carries an error string: the string is recorded, the body
    is read into no target, and an error of that read is recorded over
    it. *)
Lemma after_header_error_frame (msg : iface) (resp : codec.Message) (w : World)
      (eb : error) (got : iface) (c : C) :
  mu (strm w) = Writer ->
  0 < String.length (codec.Error_ resp) ->
  codec.ReadBody None (codec_ (strm w)) = (eb, got, c) ->
  run (Recv_after_header lastStreamResponseError msg (None, resp)) w =
  let first := if String.eqb (codec.Error_ resp) lastStreamResponseError
               then Some io_EOF
               else Some (serverError (codec.Error_ resp)) in
  let last := match eb with Some _ => eb | None => first end in
  Done (last, msg) (with_err last (called (EvReadBody None) c w)).
Proof.
  intros Hm Hl Hb; open_world w.
  apply Nat.ltb_lt in Hl; rewrite Hl.
  destruct (String.eqb (codec.Error_ resp) lastStreamResponseError); simpl;
    rewrite Hb; destruct eb; reflexivity.
Qed.

(** The header carries no error string: the body is read into the
    caller's message. *)
Lemma after_header_data_frame (msg : iface) (resp : codec.Message) (w : World)
      (eb : error) (got : iface) (c : C) :
  mu (strm w) = Writer ->
  String.length (codec.Error_ resp) = 0 ->
  codec.ReadBody msg (codec_ (strm w)) = (eb, got, c) ->
  run (Recv_after_header lastStreamResponseError msg (None, resp)) w =
  let w1 := called (EvReadBody msg) c w in
  match eb with
  | Some _ => Done (eb, got) (with_err eb w1)
  | None => Done (err (strm w), got) w1
  end.
Proof.
  intros Hm Hl Hb; open_world w.
  rewrite Hl; simpl; rewrite Hb; destruct eb; reflexivity.
Qed.

Lemma Error_spec (w : World) :
  mu (strm w) <> Writer ->
  run Error w = Done (err (strm w)) w.
Proof.
  intros Hm; open_world w.
  match goal with m : RWMutex |- _ => destruct m as [| | n] end;
    try reflexivity; congruence.
Qed.

Lemma Close_closed (w : World) :
  mu (strm w) = Free -> closed (strm w) = true ->
  run Close w = Done None w.
Proof.
  intros Hm Hc; open_world w; reflexivity.
Qed.

Lemma Close_open_eos (w : World) (we ce : error) (c1 c2 : C) :
  mu (strm w) = Free -> closed (strm w) = false -> sendEOS (strm w) = true ->
  codec.Write (frame (strm w) codec.Error lastStreamResponseError) None (codec_ (strm w)) = (we, c1) ->
  codec.Close c1 = (ce, c2) ->
  run Close w =
  Done ce (released (err (strm w))
             (called EvCodecClose c2
                (called (EvWrite (frame (strm w) codec.Error lastStreamResponseError) None) c1
                   (with_closed true w)))).
Proof.
  intros Hm Hc He Hw Hcl; open_world w.
  rewrite Hw; simpl; rewrite Hcl; reflexivity.
Qed.

Lemma Close_open_plain (w : World) (ce : error) (c2 : C) :
  mu (strm w) = Free -> closed (strm w) = false -> sendEOS (strm w) = false ->
  codec.Close (codec_ (strm w)) = (ce, c2) ->
  run Close w =
  Done ce (released (err (strm w))
             (called EvCodecClose c2 (with_closed true w))).
Proof.
  intros Hm Hc He Hcl; open_world w.
  rewrite Hcl; reflexivity.
Qed.

(** ** [Recv] on an open stream, one goroutine *)

Lemma Recv_header_failed (msg : iface) (w : World) (ev : errval)
      (resp : codec.Message) (c : C) :
  mu (strm w) = Free -> closed (strm w) = false ->
  codec.ReadHeader codec.Response (codec_ (strm w)) = (Some ev, resp, c) ->
  run (Recv msg) w =
  let e := if is_io_EOF (Some ev) then Some io_ErrUnexpectedEOF else Some ev in
  Done (e, msg) (with_err e (called (EvReadHeader codec.Response) c w)).
Proof.
  intros Hm Hc Hh.
  rewrite (Recv_open msg w _ _ Hm Hc Hh).
  unfold defer; rewrite run_bind, after_header_failed.
  open_world w; destruct ev; reflexivity.
Qed.

Lemma Recv_error_frame_read (msg : iface) (w : World) (resp : codec.Message)
      (c c' : C) (eb : error) (got : iface) :
  mu (strm w) = Free -> closed (strm w) = false ->
  codec.ReadHeader codec.Response (codec_ (strm w)) = (None, resp, c) ->
  0 < String.length (codec.Error_ resp) ->
  codec.ReadBody None c = (eb, got, c') ->
  run (Recv msg) w =
  let first := if String.eqb (codec.Error_ resp) lastStreamResponseError
               then Some io_EOF
               else Some (serverError (codec.Error_ resp)) in
  let last := match eb with Some _ => eb | None => first end in
  Done (last, msg)
       (with_err last
          (called (EvReadBody None) c'
             (called (EvReadHeader codec.Response) c w))).
Proof.
  intros Hm Hc Hh Hl Hb.
  rewrite (Recv_open msg w _ _ Hm Hc Hh).
  unfold defer; rewrite run_bind.
  rewrite (after_header_error_frame msg resp _ eb got c');
    [ | reflexivity | assumption | assumption ].
  open_world w; reflexivity.
Qed.

Lemma Recv_data_frame_read (msg : iface) (w : World) (resp : codec.Message)
      (c c' : C) (eb : error) (got : iface) :
  mu (strm w) = Free -> closed (strm w) = false ->
  codec.ReadHeader codec.Response (codec_ (strm w)) = (None, resp, c) ->
  String.length (codec.Error_ resp) = 0 ->
  codec.ReadBody msg c = (eb, got, c') ->
  run (Recv msg) w =
  let w2 := called (EvReadBody msg) c'
              (called (EvReadHeader codec.Response) c w) in
  match eb with
  | Some _ => Done (eb, got) (with_err eb w2)
  | None => Done (err (strm w), got) w2
  end.
Proof.
  intros Hm Hc Hh Hl Hb.
  rewrite (Recv_open msg w _ _ Hm Hc Hh).
  unfold defer; rewrite run_bind.
  rewrite (after_header_data_frame msg resp _ eb got c');
    [ | reflexivity | assumption | assumption ].
  open_world w; destruct eb; reflexivity.
Qed.

(** ** Every call, whatever its path *)

Lemma releases_app (t1 t2 : list (event (Payload := Payload))) :
  releases (t1 ++ t2) = releases t1 ++ releases t2.
Proof.
  induction t1 as [| ev t1 IH]; simpl; [reflexivity |].
  destruct ev; simpl; rewrite IH; reflexivity.
Qed.

(** Split [run (Recv msg) w] along the paths of [Recv], for a world [w]
    whose mutex is free ([Hm]). *)
Ltac recv_paths msg w Hm :=
  let Hc := fresh "Hc" in
  let Hh := fresh "Hh" in
  let Hl := fresh "Hl" in
  let Hb := fresh "Hb" in
  destruct (closed (strm w)) eqn:Hc;
  [ rewrite (Recv_closed msg w Hm Hc)
  | destruct (codec.ReadHeader codec.Response (codec_ (strm w)))
      as [[[ev |] resp] c1] eqn:Hh;
    [ rewrite (Recv_header_failed msg w _ _ _ Hm Hc Hh)
    | destruct (String.length (codec.Error_ resp)) as [| n] eqn:Hl;
      [ destruct (codec.ReadBody msg c1) as [[eb got] c2] eqn:Hb;
        rewrite (Recv_data_frame_read msg w _ _ _ _ _ Hm Hc Hh Hl Hb);
        destruct eb as [evb |]
      | destruct (codec.ReadBody None c1) as [[eb got] c2] eqn:Hb;
        assert (Hl' : 0 < String.length (codec.Error_ resp))
          by (rewrite Hl; apply Nat.lt_0_succ);
        rewrite (Recv_error_frame_read msg w _ _ _ _ _ Hm Hc Hh Hl' Hb) ] ] ].

(** Split [run (perform c) w] along the paths of the method called, for a
    world [w] whose mutex is free ([Hm]). *)
Ltac by_paths c w Hm :=
  let Hc := fresh "Hc" in
  destruct c as [msg | msg | |]; unfold perform; try rewrite run_bind;
  [ destruct (closed (strm w)) eqn:Hc;
    [ rewrite (Send_closed msg w Hm Hc)
    | let Hw := fresh "Hw" in
      destruct (codec.Write (frame (strm w) codec.Request "") msg
                            (codec_ (strm w))) as [? ?] eqn:Hw;
      rewrite (Send_open msg w _ _ Hm Hc Hw) ]
  | recv_paths msg w Hm
  | rewrite (Error_spec w) by (rewrite Hm; discriminate)
  | destruct (closed (strm w)) eqn:Hc;
    [ rewrite (Close_closed w Hm Hc)
    | let He := fresh "He" in
      let Hw := fresh "Hw" in
      let Hx := fresh "Hx" in
      destruct (sendEOS (strm w)) eqn:He;
      [ destruct (codec.Write (frame (strm w) codec.Error lastStreamResponseError)
                              None (codec_ (strm w))) as [we c1] eqn:Hw;
        destruct (codec.Close c1) as [ce c2] eqn:Hx;
        rewrite (Close_open_eos w _ _ _ _ Hm Hc He Hw Hx)
      | destruct (codec.Close (codec_ (strm w))) as [ce c2] eqn:Hx;
        rewrite (Close_open_plain w _ _ Hm Hc He Hx) ] ] ].

Lemma Returns_impl {A : Type} (o : outcome A) (P Q : A -> World -> Prop) :
  (forall a w, P a w -> Q a w) -> Returns o P -> Returns o Q.
Proof.
  destruct o; simpl; auto.
Qed.

Lemma run_calls_cons (c : call) (cs : list call) (w : World)
      (P : list error -> World -> Prop) :
  Returns (run (perform lastStreamResponseError c) w)
          (fun e w1 =>
             Returns (run_calls lastStreamResponseError cs w1)
                     (fun es w2 => P (e :: es) w2)) ->
  Returns (run_calls lastStreamResponseError (c :: cs) w) P.
Proof.
  simpl.
  destruct (run (perform lastStreamResponseError c) w) as [e w1 | |];
    simpl; auto.
  destruct (run_calls lastStreamResponseError cs w1); simpl; auto.
Qed.

Lemma run_calls_app (cs1 cs2 : list call) (w : World)
      (P : list error -> World -> Prop) :
  Returns (run_calls lastStreamResponseError cs1 w)
          (fun es1 w1 =>
             Returns (run_calls lastStreamResponseError cs2 w1)
                     (fun es2 w2 => P (es1 ++ es2) w2)) ->
  Returns (run_calls lastStreamResponseError (cs1 ++ cs2) w) P.
Proof.
  revert w P; induction cs1 as [| c cs1 IH]; intros w P; simpl.
  - destruct (run_calls lastStreamResponseError cs2 w); simpl; auto.
  - destruct (run (perform lastStreamResponseError c) w) as [e w1 | |];
      simpl; auto.
    intros H.
    enough (Returns (run_calls lastStreamResponseError (cs1 ++ cs2) w1)
                    (fun es w2 => P (e :: es) w2)) as H'.
    { destruct (run_calls lastStreamResponseError (cs1 ++ cs2) w1);
        simpl in *; auto. }
    apply IH.
    destruct (run_calls lastStreamResponseError cs1 w1) as [es1 w2 | |];
      simpl in *; auto.
Qed.

(** A call made while no other call is running returns: it neither
    waits for the mutex nor panics, and it leaves the mutex free.  It
    never reopens the stream, it leaves the immutable fields alone, and
    if it changes the last error, then to the non-nil error it returns. *)
Lemma perform_step (c : call) (w : World) :
  mu (strm w) = Free ->
  Returns (run (perform lastStreamResponseError c) w)
          (fun e w' =>
             mu (strm w') = Free /\
             id (strm w') = id (strm w) /\
             request (strm w') = request (strm w) /\
             sendEOS (strm w') = sendEOS (strm w) /\
             (closed (strm w) = true -> closed (strm w') = true) /\
             (err (strm w') = err (strm w) \/
              (err (strm w') = e /\ e <> None))).
Proof.
  intros Hm.
  by_paths c w Hm.
  all: by_fields w.
Qed.

(** On a closed stream no call touches the codec or the release hook. *)
Lemma perform_closed (c : call) (w : World) :
  mu (strm w) = Free -> closed (strm w) = true ->
  Returns (run (perform lastStreamResponseError c) w)
          (fun e w' =>
             trace w' = trace w /\ codec_ (strm w') = codec_ (strm w)).
Proof.
  intros Hm Hcl.
  by_paths c w Hm; try congruence.
  all: by_fields w.
Qed.

(** [Send], [Recv] and [Error] neither close the stream nor call the
    release hook. *)
Lemma perform_not_close (c : call) (w : World) :
  mu (strm w) = Free -> is_close c = false ->
  Returns (run (perform lastStreamResponseError c) w)
          (fun e w' =>
             closed (strm w') = closed (strm w) /\
             releases (trace w') = releases (trace w)).
Proof.
  intros Hm Hcl.
  by_paths c w Hm; try discriminate.
  all: destruct w as [[? ? ? ? ? ? ?] ?]; simpl in *; subst; simpl;
    split_matches; simpl; rewrite ?releases_app; simpl;
    rewrite ?app_nil_r; auto.
Qed.

Lemma Returns_and {A : Type} (o : outcome A) (P Q : A -> World -> Prop) :
  Returns o P -> Returns o Q -> Returns o (fun a w => P a w /\ Q a w).
Proof.
  destruct o; simpl; auto.
Qed.

(** A closed stream stays closed and silent, whatever is called on it. *)
Lemma run_calls_closed (cs : list call) (w : World) :
  mu (strm w) = Free -> closed (strm w) = true ->
  Returns (run_calls lastStreamResponseError cs w)
          (fun _ w' =>
             mu (strm w') = Free /\ closed (strm w') = true /\
             trace w' = trace w /\ codec_ (strm w') = codec_ (strm w)).
Proof.
  revert w; induction cs as [| c cs IH]; intros w Hm Hc.
  - simpl; auto.
  - apply run_calls_cons.
    generalize (Returns_and _ _ _ (perform_step c w Hm) (perform_closed c w Hm Hc)).
    apply Returns_impl.
    intros e w1 [(Hm1 & _ & _ & _ & Hc1 & _) [Ht Hcd]].
    generalize (IH w1 Hm1 (Hc1 Hc)); apply Returns_impl.
    intros es w2 (? & ? & ? & ?); repeat split; congruence.
Qed.

(** As long as [Close] is not called the stream stays as open as it was
    and the release hook is not called. *)
Lemma run_calls_not_close (cs : list call) (w : World) :
  mu (strm w) = Free -> existsb is_close cs = false ->
  Returns (run_calls lastStreamResponseError cs w)
          (fun _ w' =>
             mu (strm w') = Free /\ closed (strm w') = closed (strm w) /\
             releases (trace w') = releases (trace w)).
Proof.
  revert w; induction cs as [| c cs IH]; intros w Hm Hn.
  - simpl; auto.
  - simpl in Hn; apply orb_false_iff in Hn; destruct Hn as [Hc Hn].
    apply run_calls_cons.
    generalize (Returns_and _ _ _ (perform_step c w Hm)
                            (perform_not_close c w Hm Hc)).
    apply Returns_impl.
    intros e w1 [(Hm1 & _) [Hcl Hr]].
    generalize (IH w1 Hm1 Hn); apply Returns_impl.
    intros es w2 (? & ? & ?); repeat split; congruence.
Qed.

(** [Close] leaves the stream closed; on an open stream it calls the
    release hook once, with the last error. *)
Lemma Close_closes (w : World) :
  mu (strm w) = Free ->
  Returns (run Close w)
          (fun _ w' =>
             mu (strm w') = Free /\ closed (strm w') = true /\
             (closed (strm w) = false ->
              releases (trace w') = releases (trace w) ++ [err (strm w)])).
Proof.
  intros Hm.
  destruct (closed (strm w)) eqn:Hc.
  - rewrite (Close_closed w Hm Hc); simpl; repeat split; auto; discriminate.
  - destruct (sendEOS (strm w)) eqn:He.
    + destruct (codec.Write (frame (strm w) codec.Error lastStreamResponseError)
                            None (codec_ (strm w))) as [we c1] eqn:Hw.
      destruct (codec.Close c1) as [ce c2] eqn:Hx.
      rewrite (Close_open_eos w _ _ _ _ Hm Hc He Hw Hx).
      simpl; rewrite !releases_app; simpl; rewrite ?app_nil_r.
      repeat split; auto.
    + destruct (codec.Close (codec_ (strm w))) as [ce c2] eqn:Hx.
      rewrite (Close_open_plain w _ _ Hm Hc He Hx).
      simpl; rewrite !releases_app; simpl; rewrite ?app_nil_r.
      repeat split; auto.
Qed.

(** * The claims *)

(** C1. Once [Close] has returned, whatever calls were made since, [Send]
    and [Recv] return [errShutdown], record it as the last error of the
    stream and leave the codec alone: the world they leave differs from
    the one they found in the field [err] only, so the trace of calls and
    the state of the codec are as they were. *)
Theorem closed_rejects (w : World) (cs : list call) (msg : iface) :
  mu (strm w) = Free ->
  Returns (run_calls lastStreamResponseError (CallClose :: cs) w)
          (fun _ w1 =>
             let w2 := with_err (Some errShutdown) w1 in
             run (Send msg) w1 = Done (Some errShutdown) w2 /\
             run (Recv msg) w1 = Done (Some errShutdown, msg) w2 /\
             err (strm w2) = Some errShutdown /\
             trace w2 = trace w1 /\
             codec_ (strm w2) = codec_ (strm w1)).
Proof.
  intros Hm.
  apply run_calls_cons.
  generalize (Close_closes w Hm); apply Returns_impl.
  intros e w0 (Hm0 & Hc0 & _).
  generalize (run_calls_closed cs w0 Hm0 Hc0); apply Returns_impl.
  intros es w1 (Hm1 & Hc1 & _).
  simpl; repeat split.
  - apply Send_closed; assumption.
  - apply Recv_closed; assumption.
Qed.

(** C2. [Close] on a stream that is closed already returns nil and
    leaves the world as it is: nothing is written, the codec is not
    closed, the release hook is not called.  So it is however often
    [Close] is called again. *)
Theorem close_idempotent (w : World) (n : nat) :
  mu (strm w) = Free -> closed (strm w) = true ->
  run Close w = Done None w /\
  run_calls lastStreamResponseError (repeat CallClose n) w =
  Done (repeat None n) w.
Proof.
  intros Hm Hc; split.
  - apply Close_closed; assumption.
  - induction n as [| n IH]; cbn [repeat run_calls perform].
    + reflexivity.
    + rewrite (Close_closed w Hm Hc), IH; reflexivity.
Qed.

(** C3. Calls of [Send] and [Recv] (and of the accessor [Error]) on an
    open stream, whatever the codec answered, followed by [Close] called
    once or more, call the release hook exactly once: not before the
    first [Close]; once in the first [Close], with the value [Error]
    returns at that point; and still once when all the calls of [Close]
    have returned. *)
Theorem release_exactly_once (w : World) (cs : list call) (n : nat) :
  mu (strm w) = Free -> closed (strm w) = false ->
  existsb is_close cs = false ->
  Returns (run_calls lastStreamResponseError cs w)
    (fun _ w1 =>
       releases (trace w1) = releases (trace w) /\
       Returns (run Error w1)
         (fun last _ =>
            Returns (run Close w1)
              (fun _ w2 =>
                 releases (trace w2) = releases (trace w) ++ [last]) /\
            Returns (run_calls lastStreamResponseError
                               (cs ++ repeat CallClose (S n)) w)
              (fun _ w3 =>
                 releases (trace w3) = releases (trace w) ++ [last]))).
Proof.
  intros Hm Hc Hn.
  pose proof (run_calls_not_close cs w Hm Hn) as H.
  destruct (run_calls lastStreamResponseError cs w) as [es w1 | |] eqn:Hrun;
    [ | destruct H | destruct H ].
  destruct H as (Hm1 & Hc1 & Hr1); split; [assumption |].
  rewrite Error_spec by (rewrite Hm1; discriminate).
  unfold Returns at 1; cbv beta iota.
  assert (Hfirst :
            Returns (run Close w1)
                    (fun _ w2 =>
                       mu (strm w2) = Free /\ closed (strm w2) = true /\
                       releases (trace w2) =
                       releases (trace w) ++ [err (strm w1)])).
  { generalize (Close_closes w1 Hm1); apply Returns_impl.
    intros e w2 (Hm2 & Hc2 & Hr2); repeat split; auto.
    rewrite Hr2, Hr1; congruence. }
  split.
  - revert Hfirst; apply Returns_impl; intros e w2 (_ & _ & Hr); exact Hr.
  - apply run_calls_app; rewrite Hrun.
    unfold Returns at 1; cbv beta iota.
    simpl repeat; apply run_calls_cons; simpl perform.
    revert Hfirst; apply Returns_impl; intros e w2 (Hm2 & Hc2 & Hr).
    generalize (run_calls_closed (repeat CallClose n) w2 Hm2 Hc2).
    apply Returns_impl.
    intros es3 w3 (_ & _ & Ht & _); rewrite Ht; assumption.
Qed.

(** C6. The first [Close] of an open stream created with [sendEOS] set
    calls the codec and the hook three times, in this order: one [Write]
    of a frame of type [Error] that carries the id of the stream, the
    service, method and endpoint of its request and the end-of-stream
    string, with a nil body; the [Close] of the codec; the release hook.
    What [Write] returned appears nowhere: [Close] returns what the codec's
    [Close] returned.  Without [sendEOS] the same happens without the
    [Write]. *)
Theorem eos_on_close (w : World) :
  mu (strm w) = Free -> closed (strm w) = false ->
  Returns (run Close w)
    (fun e w' =>
       let r := strm w in
       let eos := codec.mkMessage (id r) codec.Error (Service (request r))
                                  (Method (request r)) (Endpoint (request r))
                                  lastStreamResponseError in
       if sendEOS r then
         let '(_, c1) := codec.Write eos None (codec_ r) in
         let '(ce, c2) := codec.Close c1 in
         e = ce /\
         trace w' = trace w ++ [EvWrite eos None; EvCodecClose; EvRelease (err r)] /\
         codec_ (strm w') = c2
       else
         let '(ce, c2) := codec.Close (codec_ r) in
         e = ce /\
         trace w' = trace w ++ [EvCodecClose; EvRelease (err r)] /\
         codec_ (strm w') = c2).
Proof.
  intros Hm Hc.
  destruct (sendEOS (strm w)) eqn:He.
  - destruct (codec.Write (frame (strm w) codec.Error lastStreamResponseError)
                          None (codec_ (strm w))) as [we c1] eqn:Hw.
    destruct (codec.Close c1) as [ce c2] eqn:Hx.
    rewrite (Close_open_eos w _ _ _ _ Hm Hc He Hw Hx).
    unfold frame in Hw; simpl; rewrite He, Hw, Hx.
    rewrite <- !app_assoc; simpl; auto.
  - destruct (codec.Close (codec_ (strm w))) as [ce c2] eqn:Hx.
    rewrite (Close_open_plain w _ _ Hm Hc He Hx).
    simpl; rewrite He, Hx.
    rewrite <- !app_assoc; simpl; auto.
Qed.

Lemma is_io_EOF_iff (ev : errval) :
  is_io_EOF (Some ev) = true <-> ev = io_EOF.
Proof.
  destruct ev; simpl; split; congruence.
Qed.

(** C7. [Recv] on an open stream whose header read fails.  With one
    goroutine: if the read reported [io.EOF], [Recv] records and returns
    [io.ErrUnexpectedEOF]; if it reported any other error, [Recv] records
    and returns that error.  With the stream in any state [wl] when [Recv]
    has taken the mutex again after the read (another goroutine may have
    closed the stream meanwhile): [io.EOF] on a stream that is not closed
    gives [io.ErrUnexpectedEOF], every other failure is recorded and
    returned as it is. *)
Theorem header_read_failure (w : World) (msg : iface) (ev : errval)
        (resp : codec.Message) (c : C) :
  mu (strm w) = Free -> closed (strm w) = false ->
  codec.ReadHeader codec.Response (codec_ (strm w)) = (Some ev, resp, c) ->
  let w1 := called (EvReadHeader codec.Response) c w in
  (ev = io_EOF ->
   run (Recv msg) w =
   Done (Some io_ErrUnexpectedEOF, msg) (with_err (Some io_ErrUnexpectedEOF) w1)) /\
  (ev <> io_EOF ->
   run (Recv msg) w = Done (Some ev, msg) (with_err (Some ev) w1)) /\
  (forall wl : World,
      (ev = io_EOF /\ closed (strm wl) = false ->
       run (Recv_after_header lastStreamResponseError msg (Some ev, resp)) wl =
       Done (Some io_ErrUnexpectedEOF, msg)
            (with_err (Some io_ErrUnexpectedEOF) wl)) /\
      (ev <> io_EOF \/ closed (strm wl) = true ->
       run (Recv_after_header lastStreamResponseError msg (Some ev, resp)) wl =
       Done (Some ev, msg) (with_err (Some ev) wl))).
Proof.
  intros Hm Hc Hh w1; subst w1.
  rewrite (Recv_header_failed msg w _ _ _ Hm Hc Hh).
  repeat split.
  - intros ->; reflexivity.
  - intros Hne; destruct ev; try reflexivity; congruence.
  - intros [-> Hcl]; rewrite after_header_failed; simpl; rewrite Hcl;
      reflexivity.
  - intros [Hne | Hcl]; rewrite after_header_failed; simpl.
    + destruct ev; try reflexivity; congruence.
    + rewrite Hcl; destruct ev; reflexivity.
Qed.

(** C5, as amended. [Recv] returns the last error of the stream as it is
    when the call ends.  A call that succeeds in full (the header is read
    without error and carries no error string, the body is decoded
    without error) records nothing: it returns the last error recorded
    before the call, nil only if there was none. *)
Theorem Recv_returns_last_error (w : World) (msg : iface) :
  mu (strm w) = Free ->
  Returns (run (Recv msg) w)
          (fun r w' => fst r = err (strm w') /\ mu (strm w') = Free) /\
  (closed (strm w) = false ->
   forall (resp : codec.Message) (c c' : C) (got : iface),
     codec.ReadHeader codec.Response (codec_ (strm w)) = (None, resp, c) ->
     String.length (codec.Error_ resp) = 0 ->
     codec.ReadBody msg c = (None, got, c') ->
     Returns (run (Recv msg) w)
             (fun r w' =>
                fst r = err (strm w) /\ snd r = got /\
                err (strm w') = err (strm w))).
Proof.
  intros Hm; split.
  - recv_paths msg w Hm; by_fields w.
  - intros Hc resp c c' got Hh Hl Hb.
    rewrite (Recv_data_frame_read msg w _ _ _ _ _ Hm Hc Hh Hl Hb).
    simpl; auto.
Qed.

(** C8, as amended. [Recv] on an open stream that reads a header whose
    error string is not empty and is not the end-of-stream string: the
    string is recorded as a [serverError], the body is read into no
    target (the caller's message is left as it is), and if that read
    succeeds [Recv] returns the [serverError], which stays the last error;
    if that read fails, its error is recorded and returned instead. *)
Theorem remote_error_is_reported (w : World) (msg : iface)
        (resp : codec.Message) (c c' : C) (eb : error) (got : iface) :
  mu (strm w) = Free -> closed (strm w) = false ->
  codec.ReadHeader codec.Response (codec_ (strm w)) = (None, resp, c) ->
  0 < String.length (codec.Error_ resp) ->
  codec.Error_ resp <> lastStreamResponseError ->
  codec.ReadBody None c = (eb, got, c') ->
  Returns (run (Recv msg) w)
    (fun r w' =>
       let remote := Some (serverError (codec.Error_ resp)) in
       let last := match eb with Some _ => eb | None => remote end in
       fst r = last /\ err (strm w') = last /\ snd r = msg /\
       trace w' = trace w ++ [EvReadHeader codec.Response; EvReadBody None] /\
       (eb = None -> fst r = remote)).
Proof.
  intros Hm Hc Hh Hl Hne Hb.
  rewrite (Recv_error_frame_read msg w _ _ _ _ _ Hm Hc Hh Hl Hb).
  apply String.eqb_neq in Hne; rewrite Hne.
  simpl; rewrite <- app_assoc; simpl.
  repeat split; auto.
  intros ->; reflexivity.
Qed.

(** C9, as amended. Once an error is recorded, no call resets the last
    error to nil, however many calls follow; and a call that changes the
    last error sets it to the error this very call returns, whatever
    error that is and whatever was recorded before. *)
Theorem last_error_never_cleared (w : World) (cs : list call) :
  mu (strm w) = Free -> err (strm w) <> None ->
  Returns (run_calls lastStreamResponseError cs w)
          (fun _ w' => err (strm w') <> None) /\
  (forall c : call,
      Returns (run (perform lastStreamResponseError c) w)
              (fun e w' =>
                 err (strm w') = err (strm w) \/
                 (err (strm w') = e /\ e <> None))).
Proof.
  intros Hm He; split.
  - revert w Hm He; induction cs as [| c cs IH]; intros w Hm He.
    + simpl; assumption.
    + apply run_calls_cons.
      generalize (perform_step c w Hm); apply Returns_impl.
      intros e w1 (Hm1 & _ & _ & _ & _ & Hov).
      apply IH; [assumption |].
      destruct Hov as [Hsame | [Hnew Hnn]]; congruence.
  - intros c.
    generalize (perform_step c w Hm); apply Returns_impl.
    intros e w1 (_ & _ & _ & _ & _ & Hov); exact Hov.
Qed.

(** One more [Recv] on an open stream whose last error is [io.EOF], when
    the frame it reads brings no error of its own. *)
Lemma Recv_quiet (w : World) (msg : iface) (rest : list iface) :
  mu (strm w) = Free -> closed (strm w) = false ->
  err (strm w) = Some io_EOF ->
  quiet lastStreamResponseError (msg :: rest) (codec_ (strm w)) = true ->
  Returns (run (Recv msg) w)
          (fun r w1 =>
             fst r = Some io_EOF /\
             mu (strm w1) = Free /\ closed (strm w1) = false /\
             err (strm w1) = Some io_EOF /\
             quiet lastStreamResponseError rest (codec_ (strm w1)) = true /\
             length (trace w1) = length (trace w) + 2).
Proof.
  intros Hm Hc He Hq; simpl in Hq.
  destruct (codec.ReadHeader codec.Response (codec_ (strm w)))
    as [[e resp] c1] eqn:Hh.
  destruct (0 <? String.length (codec.Error_ resp))%nat eqn:Hl.
  - destruct (codec.ReadBody None c1) as [[eb got] c2] eqn:Hb.
    apply andb_prop in Hq; destruct Hq as [Hq Hq4].
    apply andb_prop in Hq; destruct Hq as [Hq Hq3].
    apply andb_prop in Hq; destruct Hq as [Hq1 Hq2].
    destruct e; [discriminate |]; destruct eb; [discriminate |].
    simpl in Hq2; apply Nat.ltb_lt in Hl.
    rewrite (Recv_error_frame_read msg w _ _ _ _ _ Hm Hc Hh Hl Hb).
    rewrite Hq2; simpl; rewrite !length_app; simpl.
    repeat split; auto; lia.
  - destruct (codec.ReadBody msg c1) as [[eb got] c2] eqn:Hb.
    apply andb_prop in Hq; destruct Hq as [Hq Hq4].
    apply andb_prop in Hq; destruct Hq as [Hq Hq3].
    apply andb_prop in Hq; destruct Hq as [Hq1 Hq2].
    destruct e; [discriminate |]; destruct eb; [discriminate |].
    apply Nat.ltb_ge in Hl.
    assert (Hl0 : String.length (codec.Error_ resp) = 0) by lia.
    rewrite (Recv_data_frame_read msg w _ _ _ _ _ Hm Hc Hh Hl0 Hb).
    simpl; rewrite !length_app; simpl.
    repeat split; auto; lia.
Qed.

Lemma Recvs_quiet (msgs : list iface) (w : World) :
  mu (strm w) = Free -> closed (strm w) = false ->
  err (strm w) = Some io_EOF ->
  quiet lastStreamResponseError msgs (codec_ (strm w)) = true ->
  Returns (run_calls lastStreamResponseError (map CallRecv msgs) w)
          (fun es w2 =>
             es = repeat (Some io_EOF) (length msgs) /\
             err (strm w2) = Some io_EOF /\
             length (trace w2) = length (trace w) + 2 * length msgs).
Proof.
  revert w; induction msgs as [| msg rest IH]; intros w Hm Hc He Hq.
  - simpl; repeat split; auto.
  - simpl map; apply run_calls_cons.
    unfold perform; rewrite run_bind.
    generalize (Recv_quiet w msg rest Hm Hc He Hq).
    destruct (run (Recv msg) w) as [r w1 | |]; simpl; auto.
    intros (Hr & Hm1 & Hc1 & He1 & Hq1 & Hlen).
    generalize (IH w1 Hm1 Hc1 He1 Hq1); apply Returns_impl.
    intros es w2 (Hes & He2 & Hlen2).
    repeat split; [simpl; rewrite Hr, Hes; reflexivity | assumption | simpl length; lia].
Qed.

(** C4, as amended. A [Recv] that reads the end-of-stream string in a
    header, and whose read of the body succeeds, records and returns
    [io.EOF].  Every later [Recv] on the open stream reads the codec
    again, a header and a body per call; as long as the frames read bring
    no error of their own (the header read succeeds, the error string is
    empty or the end-of-stream string, the body read succeeds) each of
    these calls returns [io.EOF] again. *)
Theorem sentinel_then_quiet (w : World) (msg : iface) (msgs : list iface)
        (resp : codec.Message) (c c' : C) (got : iface) :
  mu (strm w) = Free -> closed (strm w) = false ->
  codec.ReadHeader codec.Response (codec_ (strm w)) = (None, resp, c) ->
  0 < String.length (codec.Error_ resp) ->
  codec.Error_ resp = lastStreamResponseError ->
  codec.ReadBody None c = (None, got, c') ->
  quiet lastStreamResponseError msgs c' = true ->
  Returns (run (Recv msg) w)
    (fun r w1 =>
       fst r = Some io_EOF /\ err (strm w1) = Some io_EOF /\
       Returns (run_calls lastStreamResponseError (map CallRecv msgs) w1)
         (fun es w2 =>
            es = repeat (Some io_EOF) (length msgs) /\
            err (strm w2) = Some io_EOF /\
            length (trace w2) = length (trace w1) + 2 * length msgs)).
Proof.
  intros Hm Hc Hh Hl Hs Hb Hq.
  rewrite (Recv_error_frame_read msg w _ _ _ _ _ Hm Hc Hh Hl Hb).
  rewrite Hs, String.eqb_refl; simpl.
  repeat split.
  apply Recvs_quiet; simpl; auto.
Qed.

(** C10. A [Recv] reads the end-of-stream string in a header and its read
    of the body succeeds; [Close] follows.  The release hook is called
    once, with [io.EOF], which is not nil.  [io.EOF] is also what [Recv]
    records when its header read reports [io.EOF] and it finds the stream
    closed on taking the mutex again. *)
Theorem graceful_close_releases_EOF (w : World) (msg : iface)
        (resp : codec.Message) (c c' : C) (got : iface) :
  mu (strm w) = Free -> closed (strm w) = false ->
  codec.ReadHeader codec.Response (codec_ (strm w)) = (None, resp, c) ->
  0 < String.length (codec.Error_ resp) ->
  codec.Error_ resp = lastStreamResponseError ->
  codec.ReadBody None c = (None, got, c') ->
  Returns (run_calls lastStreamResponseError [CallRecv msg; CallClose] w)
    (fun es w' =>
       releases (trace w') = releases (trace w) ++ [Some io_EOF] /\
       hd None es = Some io_EOF) /\
  Some io_EOF <> (None : error) /\
  (forall (wl : World) (resp' : codec.Message),
      closed (strm wl) = true ->
      Returns (run (Recv_after_header lastStreamResponseError msg
                                      (Some io_EOF, resp')) wl)
              (fun r wl' =>
                 fst r = Some io_EOF /\ err (strm wl') = Some io_EOF)).
Proof.
  intros Hm Hc Hh Hl Hs Hb; split; [ | split; [discriminate |] ].
  - apply run_calls_cons; unfold perform at 1; rewrite run_bind.
    rewrite (Recv_error_frame_read msg w _ _ _ _ _ Hm Hc Hh Hl Hb).
    rewrite Hs, String.eqb_refl; cbn -[run_calls].
    apply run_calls_cons; unfold perform.
    match goal with
    | |- Returns (run _ ?w1) _ =>
        assert (Hm1 : mu (strm w1) = Free) by (simpl; assumption);
        assert (Hc1 : closed (strm w1) = false) by (simpl; assumption);
        generalize (Close_closes w1 Hm1); apply Returns_impl
    end.
    intros e w2 (_ & _ & Hr); specialize (Hr Hc1).
    simpl; rewrite Hr; simpl.
    rewrite !releases_app; simpl; rewrite ?app_nil_r; auto.
  - intros wl resp' Hcl.
    rewrite after_header_failed; simpl; rewrite Hcl; simpl; auto.
Qed.

(** * Further properties of the methods *)

(** X1. [Send] on an open stream calls the codec once: a [Write] of a
    frame of type [Request] that carries the id of the stream and the
    service, method and endpoint of its request, with an empty error
    string and the message as body.  It returns what [Write] returned.  A
    failure is recorded as the last error; a success records nothing, so
    an error recorded earlier stays.  Either way the stream stays open. *)
Theorem Send_writes_one_request (w : World) (msg : iface) :
  mu (strm w) = Free -> closed (strm w) = false ->
  Returns (run (Send msg) w)
    (fun e w' =>
       let r := strm w in
       let req := codec.mkMessage (id r) codec.Request (Service (request r))
                                  (Method (request r)) (Endpoint (request r))
                                  "" in
       let '(we, c) := codec.Write req msg (codec_ r) in
       e = we /\
       trace w' = trace w ++ [EvWrite req msg] /\
       codec_ (strm w') = c /\
       closed (strm w') = false /\
       err (strm w') = match we with Some _ => we | None => err r end).
Proof.
  intros Hm Hc.
  destruct (codec.Write (frame (strm w) codec.Request "") msg
                        (codec_ (strm w))) as [we c] eqn:Hw.
  rewrite (Send_open msg w _ _ Hm Hc Hw).
  unfold frame in Hw; simpl; rewrite Hw.
  destruct we; simpl; auto.
Qed.

(** X2. The codec calls of [Recv] on an open stream: one [ReadHeader] for
    a [Response]; no more if that read failed; otherwise one [ReadBody],
    into no target if the header carries an error string, into the
    caller's message if it carries none.  The caller's message is left as
    it was except in the last case.  The stream stays open. *)
Theorem Recv_transport_calls (w : World) (msg : iface) :
  mu (strm w) = Free -> closed (strm w) = false ->
  Returns (run (Recv msg) w)
    (fun r w' =>
       let '(e, resp, c) :=
         codec.ReadHeader codec.Response (codec_ (strm w)) in
       closed (strm w') = false /\
       match e with
       | Some _ =>
           trace w' = trace w ++ [EvReadHeader codec.Response] /\
           snd r = msg /\ codec_ (strm w') = c
       | None =>
           if (0 <? String.length (codec.Error_ resp))%nat then
             trace w' = trace w ++ [EvReadHeader codec.Response; EvReadBody None] /\
             snd r = msg /\ codec_ (strm w') = snd (codec.ReadBody None c)
           else
             trace w' = trace w ++ [EvReadHeader codec.Response; EvReadBody msg] /\
             snd r = snd (fst (codec.ReadBody msg c)) /\
             codec_ (strm w') = snd (codec.ReadBody msg c)
       end).
Proof.
  intros Hm Hcl.
  recv_paths msg w Hm; [congruence | | | |].
  - simpl; repeat split; auto.
  - simpl; rewrite <- app_assoc; repeat split; auto.
  - simpl; rewrite <- app_assoc; repeat split; auto.
  - simpl; rewrite <- app_assoc.
    destruct eb; repeat split; auto.
Qed.

(** X3. A data frame whose body cannot be decoded: the header is read
    without error and carries no error string, and [ReadBody] into the
    caller's message fails.  [Recv] records that error as the last error
    and returns it; the caller's message holds what the codec left in
    it; the stream stays open. *)
Theorem decode_failure_reported (w : World) (msg : iface)
        (resp : codec.Message) (c c' : C) (ev : errval) (got : iface) :
  mu (strm w) = Free -> closed (strm w) = false ->
  codec.ReadHeader codec.Response (codec_ (strm w)) = (None, resp, c) ->
  String.length (codec.Error_ resp) = 0 ->
  codec.ReadBody msg c = (Some ev, got, c') ->
  Returns (run (Recv msg) w)
    (fun r w' =>
       r = (Some ev, got) /\ err (strm w') = Some ev /\
       closed (strm w') = false /\ mu (strm w') = Free).
Proof.
  intros Hm Hc Hh Hl Hb.
  rewrite (Recv_data_frame_read msg w _ _ _ _ _ Hm Hc Hh Hl Hb).
  simpl; auto.
Qed.

(** X4. Calls made one after the other, starting with the mutex free,
    all return, whatever the codec answers: no call waits for a mutex it
    holds itself, unlocks a mutex it does not hold or closes the channel
    twice.  The mutex is free again at the end and the id, the request
    and the [sendEOS] flag of the stream are what they were. *)
Theorem calls_return_unlocked (cs : list call) (w : World) :
  mu (strm w) = Free ->
  Returns (run_calls lastStreamResponseError cs w)
    (fun es w' =>
       length es = length cs /\
       mu (strm w') = Free /\
       id (strm w') = id (strm w) /\
       request (strm w') = request (strm w) /\
       sendEOS (strm w') = sendEOS (strm w)).
Proof.
  revert w; induction cs as [| c cs IH]; intros w Hm.
  - simpl; auto.
  - apply run_calls_cons.
    generalize (perform_step c w Hm); apply Returns_impl.
    intros e w1 (Hm1 & Hi & Hr & Hs & _).
    generalize (IH w1 Hm1); apply Returns_impl.
    intros es w2 (Hlen & Hm2 & Hi2 & Hr2 & Hs2).
    simpl; repeat split; congruence.
Qed.

(** [Close] leaves the last error as it is. *)
Lemma Close_err (w : World) :
  mu (strm w) = Free ->
  Returns (run Close w) (fun _ w' => err (strm w') = err (strm w)).
Proof.
  intros Hm.
  destruct (closed (strm w)) eqn:Hc.
  - rewrite (Close_closed w Hm Hc); reflexivity.
  - destruct (sendEOS (strm w)) eqn:He.
    + destruct (codec.Write (frame (strm w) codec.Error lastStreamResponseError)
                            None (codec_ (strm w))) as [we c1] eqn:Hw.
      destruct (codec.Close c1) as [ce c2] eqn:Hx.
      rewrite (Close_open_eos w _ _ _ _ Hm Hc He Hw Hx); reflexivity.
    + destruct (codec.Close (codec_ (strm w))) as [ce c2] eqn:Hx.
      rewrite (Close_open_plain w _ _ Hm Hc He Hx); reflexivity.
Qed.

(** X5. After calls made one after the other the stream is closed
    exactly if it was closed before or [Close] is among the calls: no
    failure of [Send] or [Recv] closes the stream, and nothing reopens
    it. *)
Theorem closed_iff_Close_called (cs : list call) (w : World) :
  mu (strm w) = Free ->
  Returns (run_calls lastStreamResponseError cs w)
    (fun _ w' => closed (strm w') = closed (strm w) || existsb is_close cs).
Proof.
  revert w; induction cs as [| c cs IH]; intros w Hm.
  - simpl; rewrite orb_false_r; reflexivity.
  - apply run_calls_cons.
    destruct (is_close c) eqn:Hcl.
    + destruct c; try discriminate.
      generalize (Returns_and _ _ _ (perform_step CallClose w Hm)
                              (Close_closes w Hm)).
      apply Returns_impl.
      intros e w1 [(Hm1 & _) (_ & Hc1 & _)].
      generalize (IH w1 Hm1); apply Returns_impl.
      intros es w2 ->; rewrite Hc1; simpl; rewrite orb_true_r; reflexivity.
    + generalize (Returns_and _ _ _ (perform_step c w Hm)
                              (perform_not_close c w Hm Hcl)).
      apply Returns_impl.
      intros e w1 [(Hm1 & _) (Hc1 & _)].
      generalize (IH w1 Hm1); apply Returns_impl.
      intros es w2 ->; rewrite Hc1; simpl; rewrite Hcl; reflexivity.
Qed.

(** X6. [Close] records nothing: whether the end-of-stream frame could be
    written or not and whether the codec could be closed or not, the last
    error after [Close] is the one from before, and that is what a call
    of [Error] after [Close] returns. *)
Theorem Close_keeps_last_error (w : World) :
  mu (strm w) = Free ->
  Returns (run Close w)
    (fun _ w' =>
       err (strm w') = err (strm w) /\
       run Error w' = Done (err (strm w)) w').
Proof.
  intros Hm.
  generalize (Returns_and _ _ _ (Close_err w Hm) (Close_closes w Hm)).
  apply Returns_impl.
  intros e w' [He (Hm' & _)]; split; [assumption |].
  rewrite Error_spec by (rewrite Hm'; discriminate).
  rewrite He; reflexivity.
Qed.


(** * Two goroutines, any codec *)

(** Run the next codec call of the goal. *)
Ltac codec_answer :=
  match goal with
  | |- context [codec.Write ?m ?b ?c] =>
      destruct (codec.Write m b c) as [[? |] ?] eqn:?
  | |- context [codec.ReadHeader ?t ?c] =>
      destruct (codec.ReadHeader t c) as [[[? |] ?] ?] eqn:?
  | |- context [codec.ReadBody ?t ?c] =>
      destruct (codec.ReadBody t c) as [[[? |] ?] ?] eqn:?
  | |- context [codec.Close ?c] =>
      destruct (codec.Close c) as [[? |] ?] eqn:?
  | |- context [is_io_EOF (Some ?e)] => destruct e
  | |- context [match ?x with _ => _ end] => is_var x; destruct x
  | |- context [(0 <? String.length ?s)%nat] =>
      destruct (0 <? String.length s)%nat eqn:?
  | |- context [String.eqb ?a ?b] => destruct (String.eqb a b) eqn:?
  end; simpl.

(** X8. [Recv] does not hold the mutex while it waits for a header.
    Goroutine 0 calls [Recv] on an open stream and gets as far as the
    header read; goroutine 1 then calls [Send], which runs to its end;
    [Recv] goes on after that.  Whatever the codec answers, both calls
    return, the mutex is free at the end, and the codec saw the [Write] of
    [Send] before the [ReadHeader] of [Recv]. *)
Theorem Send_runs_while_Recv_waits (w : World) (m1 m2 : iface) :
  mu (strm w) = Free -> closed (strm w) = false ->
  Returns (sched ([0; 0; 0] ++ repeat 1 6 ++ repeat 0 9)
                 [perform lastStreamResponseError (CallRecv m1);
                  perform lastStreamResponseError (CallSend m2)] w)
    (fun ts w' =>
       (exists e1 e2, ts = [Ret e1; Ret e2]) /\
       mu (strm w') = Free /\
       exists tail,
         trace w' =
         trace w ++ EvWrite (frame (strm w) codec.Request "") m2
                 :: EvReadHeader codec.Response :: tail).
Proof.
  intros Hm Hc; unfold perform; open_world w.
  repeat codec_answer.
  all: repeat split; eauto.
  all: eexists; rewrite <- ?app_assoc; simpl; reflexivity.
Qed.


(** X10. [Send] holds the mutex from its first step until the codec has
    taken the frame.  Goroutine 0 calls [Send] on an open stream; after
    one, two, three or four of its steps (the fourth is the [Write]) no
    call of goroutine 1 can take its first step. *)
Theorem Send_holds_mutex_through_write (w : World) (msg : iface) (c : call)
        (j : nat) :
  mu (strm w) = Free -> closed (strm w) = false ->
  1 <= j <= 4 ->
  sched (repeat 0 j ++ [1])
        [perform lastStreamResponseError (CallSend msg);
         perform lastStreamResponseError c] w
  = Blocked.
Proof.
  intros Hm Hc Hj; unfold perform.
  assert (Hcases : j = 1 \/ j = 2 \/ j = 3 \/ j = 4) by lia.
  destruct Hcases as [-> | [-> | [-> | ->]]];
    destruct c; open_world w; try reflexivity.
  all: repeat codec_answer; reflexivity.
Qed.

(** * Goroutines that call [Close] at the same time *)

Local Abbreviation close_pc := (close_pc (C := C)).

Lemma Close_from_Lock :
  Close = from_Lock (Payload := Payload) (C := C) lastStreamResponseError.
Proof.
  reflexivity.
Qed.

Lemma set_nth_same {A : Type} (i : nat) (x : A) (l : list A) :
  nth_error l i = Some x -> set_nth i x l = l.
Proof.
  revert i; induction l as [| y l IH]; intros [| i]; simpl; try discriminate.
  - intros [= ->]; reflexivity.
  - intros H; rewrite (IH i H); reflexivity.
Qed.

Lemma set_nth_map {A B : Type} (f : A -> B) (i : nat) (x : A) (l : list A) :
  set_nth i (f x) (map f l) = map f (set_nth i x l).
Proof.
  revert i; induction l as [| y l IH]; intros [| i]; simpl; try reflexivity.
  rewrite IH; reflexivity.
Qed.

(** A step of [sched] on a goroutine inside [Close] is the step of
    [close_step] at the place where the goroutine stands. *)
Lemma sched_close_step (i : nat) (pc : close_pc) (pcs : list close_pc)
      (s : list nat) (w : World) :
  nth_error pcs i = Some pc ->
  sched (i :: s) (map (close_prog lastStreamResponseError) pcs) w =
  match close_step lastStreamResponseError pc w with
  | Done pc' w' =>
      sched s (map (close_prog lastStreamResponseError) (set_nth i pc' pcs)) w'
  | Blocked => Blocked
  | Panic => Panic
  end.
Proof.
  intros Hi; simpl sched; rewrite nth_error_map, Hi; simpl option_map.
  destruct pc; simpl.
  all: try (rewrite (set_nth_same _ _ _ Hi); reflexivity).
  all: try (rewrite <- ?set_nth_map; reflexivity).
  all: unfold after_Load, frame; simpl;
    repeat (match goal with
            | |- context [if sendEOS ?r then _ else _] => destruct (sendEOS r)
            | |- context [match mu (strm ?w) with _ => _ end] =>
                destruct (mu (strm w))
            | |- context [if closed (strm ?w) then _ else _] =>
                destruct (closed (strm w))
            | |- context [codec.Write ?a ?b ?c] =>
                destruct (codec.Write a b c) as [? ?]
            | |- context [codec.Close ?c] => destruct (codec.Close c) as [? ?]
            | |- context [match ?n with 0 => _ | S _ => _ end] =>
                is_var n; destruct n
            end; simpl);
    rewrite <- ?set_nth_map; reflexivity.
Qed.

Lemma sched_as_stages (s : list nat) (pcs : list close_pc) (w : World) :
  sched s (map (close_prog lastStreamResponseError) pcs) w =
  match sched_close lastStreamResponseError s pcs w with
  | Done pcs' w' => Done (map (close_prog lastStreamResponseError) pcs') w'
  | Blocked => Blocked
  | Panic => Panic
  end.
Proof.
  revert pcs w; induction s as [| i s IH]; intros pcs w; [reflexivity |].
  destruct (nth_error pcs i) as [pc |] eqn:Hi.
  - rewrite (sched_close_step i pc pcs s w Hi).
    simpl sched_close; rewrite Hi.
    destruct (close_step lastStreamResponseError pc w); auto.
  - simpl; rewrite nth_error_map, Hi; simpl; apply IH.
Qed.

Lemma count_set_nth (f : close_pc -> bool) (i : nat) (pc pc' : close_pc)
      (pcs : list close_pc) :
  nth_error pcs i = Some pc ->
  count f (set_nth i pc' pcs) + (if f pc then 1 else 0) =
  count f pcs + (if f pc' then 1 else 0).
Proof.
  revert i; induction pcs as [| x pcs IH]; intros [| i]; simpl;
    try discriminate.
  - intros [= ->]; lia.
  - intros Hi; specialize (IH i Hi); lia.
Qed.

Lemma count_nth (f : close_pc -> bool) (i : nat) (pc : close_pc)
      (pcs : list close_pc) :
  nth_error pcs i = Some pc ->
  (if f pc then 1 else 0) <= count f pcs.
Proof.
  revert i; induction pcs as [| x pcs IH]; intros [| i]; simpl;
    try discriminate.
  - intros [= ->]; lia.
  - intros Hi; specialize (IH i Hi); lia.
Qed.

Lemma count_le (f g : close_pc -> bool) (pcs : list close_pc) :
  (forall pc, f pc = true -> g pc = true) ->
  count f pcs <= count g pcs.
Proof.
  intros Hfg; induction pcs as [| x pcs IH]; simpl; [lia |].
  specialize (Hfg x); destruct (f x), (g x); try lia;
    discriminate (Hfg eq_refl).
Qed.

Lemma count_repeat (f : close_pc -> bool) (pc : close_pc) (k : nat) :
  f pc = false -> count f (repeat pc k) = 0.
Proof.
  intros Hf; induction k as [| k IH]; simpl; [reflexivity |].
  rewrite Hf, IH; reflexivity.
Qed.

Lemma Forall_set_nth {A : Type} (P : A -> Prop) (i : nat) (x : A) (l : list A) :
  Forall P l -> P x -> Forall P (set_nth i x l).
Proof.
  intros Hl Hx; revert i; induction Hl as [| y l Hy Hl IH]; intros [| i];
    simpl; auto.
Qed.

Lemma Forall_nth {A : Type} (P : A -> Prop) (i : nat) (x : A) (l : list A) :
  Forall P l -> nth_error l i = Some x -> P x.
Proof.
  intros Hl Hi; apply nth_error_In in Hi.
  rewrite Forall_forall in Hl; auto.
Qed.

(** A step of a goroutine inside [Close] keeps [close_inv], and it does
    not panic. *)
Lemma close_inv_step (err0 : error) (rel0 : list error) (i : nat)
      (pc : close_pc) (pcs : list close_pc) (w : World) :
  close_inv err0 rel0 pcs w ->
  nth_error pcs i = Some pc ->
  match close_step lastStreamResponseError pc w with
  | Done pc' w' => close_inv err0 rel0 (set_nth i pc' pcs) w'
  | Blocked => True
  | Panic => False
  end.
Proof.
  intros (He & Hmu & Hwon & Hlost & Hcc & Hrel & Hcar) Hi.
  pose proof (count_nth holds_w i pc pcs Hi) as Nw.
  pose proof (count_nth holds_r i pc pcs Hi) as Nr.
  pose proof (count_nth has_won i pc pcs Hi) as Nwon.
  pose proof (count_nth has_lost i pc pcs Hi) as Nlost.
  pose proof (count_nth at_CloseChan i pc pcs Hi) as Ncc.
  pose proof (count_le at_CloseChan holds_w pcs) as Lcc.
  pose proof (Forall_nth _ _ _ _ Hcar Hi) as Hpc.
  assert (Sw : forall pc', count holds_w (set_nth i pc' pcs)
                           + (if holds_w pc then 1 else 0)
                           = count holds_w pcs + (if holds_w pc' then 1 else 0))
    by (intros; apply count_set_nth; assumption).
  assert (Sr : forall pc', count holds_r (set_nth i pc' pcs)
                           + (if holds_r pc then 1 else 0)
                           = count holds_r pcs + (if holds_r pc' then 1 else 0))
    by (intros; apply count_set_nth; assumption).
  assert (Swon : forall pc', count has_won (set_nth i pc' pcs)
                           + (if has_won pc then 1 else 0)
                           = count has_won pcs + (if has_won pc' then 1 else 0))
    by (intros; apply count_set_nth; assumption).
  assert (Slost : forall pc', count has_lost (set_nth i pc' pcs)
                           + (if has_lost pc then 1 else 0)
                           = count has_lost pcs + (if has_lost pc' then 1 else 0))
    by (intros; apply count_set_nth; assumption).
  assert (Scc : forall pc', count at_CloseChan (set_nth i pc' pcs)
                           + (if at_CloseChan pc then 1 else 0)
                           = count at_CloseChan pcs
                             + (if at_CloseChan pc' then 1 else 0))
    by (intros; apply count_set_nth; assumption).
  assert (Srel : forall pc', count has_released (set_nth i pc' pcs)
                           + (if has_released pc then 1 else 0)
                           = count has_released pcs
                             + (if has_released pc' then 1 else 0))
    by (intros; apply count_set_nth; assumption).
  assert (Lcc' : count at_CloseChan pcs <= count holds_w pcs)
    by (apply Lcc; intros []; simpl; congruence).
  clear Lcc.
  destruct w as [[m i0 cl e0 rq cd eos] tr]; simpl in *; subst e0.
  assert (Hlost' : cl = true \/ count has_lost pcs = 0)
    by (destruct cl; auto).
  assert (Hcc' : cl = false \/ count at_CloseChan pcs = 0)
    by (destruct cl; auto).
  clear Hlost Hcc.
  destruct pc; simpl in *;
    try match goal with
        | |- context [if sendEOS ?r then _ else _] => destruct (sendEOS r)
        end;
    unfold then_at; simpl;
    repeat match goal with
           | |- context [codec.Write ?a ?b ?c] =>
               destruct (codec.Write a b c) as [? ?]
           | |- context [codec.Close ?c] => destruct (codec.Close c) as [? ?]
           end;
    destruct Hmu as [(-> & Hw & Hr) | [(-> & Hw & Hr) | (n & -> & Hw & Hr)]];
    simpl; try exact I; try lia;
    try (destruct n; simpl);
    destruct cl; simpl;
    try (destruct Hlost' as [? | Hlost']; [discriminate |]);
    try (destruct Hcc' as [? | Hcc']; [discriminate |]);
    try lia.
  all: match goal with
       | |- close_inv _ _ (set_nth _ ?pc' _) _ =>
           specialize (Sw pc'); specialize (Sr pc'); specialize (Swon pc');
           specialize (Slost pc'); specialize (Scc pc'); specialize (Srel pc');
           simpl in *
       end.
  all: unfold close_inv; simpl.
  all: rewrite ?releases_app; simpl; rewrite ?app_nil_r.
  all: split; [reflexivity |].
  all: split;
    [ first [ left; repeat split; (reflexivity || lia)
            | right; left; repeat split; (reflexivity || lia)
            | right; right; eexists; split; [reflexivity | split; lia] ]
    | ].
  all: split; [lia |].
  all: split; [intros ?; try discriminate; lia |].
  all: split; [intros ?; try discriminate; lia |].
  all: split; [ | apply Forall_set_nth; [assumption | simpl; auto] ].
  all: match goal with
       | |- _ = _ ++ repeat _ ?k =>
           first [ replace k with (count has_released pcs) by lia; exact Hrel
                 | replace k with (S (count has_released pcs)) by lia;
                   subst; rewrite Hrel, <- app_assoc; simpl;
                   rewrite <- repeat_cons; reflexivity ]
       end.
Qed.

Lemma set_nth_length {A : Type} (i : nat) (x : A) (l : list A) :
  length (set_nth i x l) = length l.
Proof.
  revert i; induction l as [| y l IH]; intros [| i]; simpl; auto.
Qed.

(** Under any schedule goroutines inside [Close] keep [close_inv] and
    none of them panics. *)
Lemma close_inv_sched (err0 : error) (rel0 : list error) (s : list nat)
      (pcs : list close_pc) (w : World) :
  close_inv err0 rel0 pcs w ->
  match sched_close lastStreamResponseError s pcs w with
  | Done pcs' w' => close_inv err0 rel0 pcs' w' /\ length pcs' = length pcs
  | Blocked => True
  | Panic => False
  end.
Proof.
  revert pcs w; induction s as [| i s IH]; intros pcs w Hinv; simpl.
  - auto.
  - destruct (nth_error pcs i) as [pc |] eqn:Hi; [ | apply IH; assumption ].
    pose proof (close_inv_step err0 rel0 i pc pcs w Hinv Hi) as Hstep.
    destruct (close_step lastStreamResponseError pc w) as [pc' w' | |];
      [ | exact I | exact Hstep ].
    specialize (IH (set_nth i pc' pcs) w' Hstep).
    destruct (sched_close lastStreamResponseError s (set_nth i pc' pcs) w');
      auto.
    rewrite set_nth_length in IH; exact IH.
Qed.

Lemma returned_stage (pc : close_pc) :
  is_Ret (close_prog (Payload := Payload) lastStreamResponseError pc) = true ->
  has_returned pc = true.
Proof.
  destruct pc; simpl; try discriminate; auto.
  unfold after_Load; destruct (sendEOS r); simpl; discriminate.
Qed.

Lemma all_returned_counts (pcs : list close_pc) :
  forallb is_Ret
          (map (close_prog (Payload := Payload) lastStreamResponseError) pcs)
  = true ->
  count holds_w pcs = 0 /\ count holds_r pcs = 0 /\
  count has_released pcs = count has_won pcs /\
  count has_won pcs + count has_lost pcs = length pcs.
Proof.
  induction pcs as [| pc pcs IH]; simpl; [auto |].
  intros H; apply andb_prop in H; destruct H as [Hpc Hall].
  apply returned_stage in Hpc.
  destruct (IH Hall) as (Hw & Hr & Hrel & Hlen).
  destruct pc; simpl in *; try discriminate.
  destruct won; simpl; repeat split; lia.
Qed.

(** X11. Any number of goroutines call [Close] on an open stream at the
    same time.  Under every schedule: no goroutine panics (no unlock of a
    mutex that is not held, no second close of the channel); the release
    hook is called at most once, and with the last error the stream had
    at the start; and when all the calls have returned the hook has been
    called exactly once, the stream is closed and the mutex is free. *)
Theorem concurrent_Close_releases_once (k : nat) (s : list nat) (w : World) :
  mu (strm w) = Free -> closed (strm w) = false ->
  match sched s (repeat (perform lastStreamResponseError CallClose) k) w with
  | Done ts w' =>
      (releases (trace w') = releases (trace w) \/
       releases (trace w') = releases (trace w) ++ [err (strm w)]) /\
      (0 < k -> forallb is_Ret ts = true ->
       releases (trace w') = releases (trace w) ++ [err (strm w)] /\
       closed (strm w') = true /\ mu (strm w') = Free)
  | Blocked => True
  | Panic => False
  end.
Proof.
  intros Hm Hc.
  change (perform lastStreamResponseError CallClose)
    with (close_prog (Payload := Payload) (C := C) lastStreamResponseError
                     AtLock).
  rewrite <- map_repeat, sched_as_stages.
  assert (Hinit : close_inv (err (strm w)) (releases (trace w))
                            (repeat AtLock k) w).
  { unfold close_inv; rewrite Hm, Hc, !count_repeat by reflexivity.
    simpl; rewrite app_nil_r; repeat split; auto; try discriminate.
    apply Forall_forall; intros pc Hin; apply repeat_spec in Hin; subst.
    exact I. }
  pose proof (close_inv_sched _ _ s _ _ Hinit) as H.
  destruct (sched_close lastStreamResponseError s (repeat AtLock k) w)
    as [pcs' w' | |]; auto.
  destruct H as [(He & Hmu & Hwon & Hlost & Hcc & Hrel & Hcar) Hlen].
  rewrite repeat_length in Hlen.
  pose proof (count_le has_released has_won pcs') as Hle.
  assert (Hle' : count has_released pcs' <= count has_won pcs').
  { apply Hle; intros []; simpl; try discriminate; auto. }
  split.
  - rewrite Hrel.
    destruct (count has_released pcs') as [| [| n]] eqn:Hn; simpl.
    + left; apply app_nil_r.
    + right; reflexivity.
    + destruct (closed (strm w')); lia.
  - intros Hk Hall.
    destruct (all_returned_counts pcs' Hall) as (Hw0 & Hr0 & Hrw & Hsum).
    destruct (closed (strm w')) eqn:Hcl.
    + rewrite Hrel, Hrw, Hwon; simpl; repeat split.
      destruct Hmu as [(Hfree & _) | [(_ & Hw1 & _) | (n & _ & _ & Hrn)]];
        [assumption | lia | lia].
    + specialize (Hlost eq_refl); lia.
Qed.

Lemma count_pos_nth (f : close_pc -> bool) (pcs : list close_pc) :
  0 < count f pcs ->
  exists i pc, nth_error pcs i = Some pc /\ f pc = true.
Proof.
  induction pcs as [| x pcs IH]; simpl; [lia |].
  destruct (f x) eqn:Hx.
  - intros _; exists 0, x; auto.
  - intros H; destruct (IH H) as (i & pc & Hi & Hf).
    exists (S i), pc; auto.
Qed.

Lemma not_all_returned (pcs : list close_pc) :
  forallb is_Ret
          (map (close_prog (Payload := Payload) lastStreamResponseError) pcs)
  = false ->
  exists i pc, nth_error pcs i = Some pc /\ has_returned pc = false.
Proof.
  induction pcs as [| x pcs IH]; simpl; [discriminate |].
  intros H; apply andb_false_iff in H; destruct H as [H | H].
  - exists 0, x; split; [reflexivity |].
    destruct x; simpl in *; auto; discriminate.
  - destruct (IH H) as (i & pc & Hi & Hf).
    exists (S i), pc; auto.
Qed.

(** Among goroutines inside [Close] that have not all returned there is
    one whose next step does not wait: the holder of the mutex if it is
    held, any of them if it is free. *)
Lemma close_inv_can_step (err0 : error) (rel0 : list error)
      (pcs : list close_pc) (w : World) (j : nat) (pcj : close_pc) :
  close_inv err0 rel0 pcs w ->
  nth_error pcs j = Some pcj -> has_returned pcj = false ->
  exists i pc,
    nth_error pcs i = Some pc /\ has_returned pc = false /\
    close_step lastStreamResponseError pc w <> Blocked.
Proof.
  intros (He & Hmu & _) Hj Hnr.
  destruct Hmu as [(Hm & _) | [(Hm & Hw & _) | (n & Hm & _ & Hr)]].
  - exists j, pcj; repeat split; auto.
    destruct w as [[m i0 cl e0 rq cd eos] tr]; simpl in *; subst m.
    destruct pcj; simpl; try discriminate;
      repeat match goal with
             | |- context [if ?b then _ else _] => destruct b; simpl
             | |- context [codec.Write ?a ?b ?c] =>
                 destruct (codec.Write a b c) as [? ?]; simpl
             | |- context [codec.Close ?c] =>
                 destruct (codec.Close c) as [? ?]; simpl
             end; discriminate.
  - destruct (count_pos_nth holds_w pcs) as (i & pc & Hi & Hf); [lia |].
    exists i, pc; split; [assumption |].
    destruct w as [[m i0 cl e0 rq cd eos] tr]; simpl in *; subst m.
    destruct pc; simpl in *; try discriminate; split; auto;
      try discriminate.
    destruct cl; discriminate.
  - destruct (count_pos_nth holds_r pcs) as (i & pc & Hi & Hf); [lia |].
    exists i, pc; split; [assumption |].
    destruct w as [[m i0 cl e0 rq cd eos] tr]; simpl in *; subst m.
    destruct pc; simpl in *; try discriminate; split; auto;
      try discriminate.
    destruct n; discriminate.
Qed.

(** X12. Goroutines that call [Close] on an open stream at the same time
    never wait for each other for ever: under every schedule, as long as
    one of them has not returned there is one that can take its next
    step. *)
Theorem concurrent_Close_no_deadlock (k : nat) (s : list nat) (w : World) :
  mu (strm w) = Free -> closed (strm w) = false ->
  match sched s (repeat (perform lastStreamResponseError CallClose) k) w with
  | Done ts w' =>
      forallb is_Ret ts = true \/
      exists i p,
        nth_error ts i = Some p /\ is_Ret p = false /\
        Returns (sched [i] ts w') (fun _ _ => True)
  | Blocked => True
  | Panic => False
  end.
Proof.
  intros Hm Hc.
  change (perform lastStreamResponseError CallClose)
    with (close_prog (Payload := Payload) (C := C) lastStreamResponseError
                     AtLock).
  rewrite <- map_repeat, sched_as_stages.
  assert (Hinit : close_inv (err (strm w)) (releases (trace w))
                            (repeat AtLock k) w).
  { unfold close_inv; rewrite Hm, Hc, !count_repeat by reflexivity.
    simpl; rewrite app_nil_r; repeat split; auto; try discriminate.
    apply Forall_forall; intros pc Hin; apply repeat_spec in Hin; subst.
    exact I. }
  pose proof (close_inv_sched _ _ s _ _ Hinit) as H.
  destruct (sched_close lastStreamResponseError s (repeat AtLock k) w)
    as [pcs' w' | |]; auto.
  destruct H as [Hinv _].
  destruct (forallb is_Ret (map (close_prog lastStreamResponseError) pcs'))
    eqn:Hall; [left; reflexivity | right].
  destruct (not_all_returned pcs' Hall) as (j & pcj & Hj & Hnr).
  destruct (close_inv_can_step _ _ _ _ _ _ Hinv Hj Hnr)
    as (i & pc & Hi & Hpc & Hstep).
  exists i, (close_prog lastStreamResponseError pc); split; [ | split ].
  - rewrite nth_error_map, Hi; reflexivity.
  - destruct pc; simpl in *; try discriminate; try reflexivity.
    unfold after_Load; destruct (sendEOS r); reflexivity.
  - rewrite (sched_close_step i pc pcs' [] w' Hi).
    pose proof (close_inv_step _ _ i pc pcs' w' Hinv Hi) as Hok.
    destruct (close_step lastStreamResponseError pc w'); simpl; auto.
Qed.

End StreamFacts.

(** * The claims on the canned transports *)

Lemma closed_rejects_witness :
  mu (strm (fresh true healthy)) = Free /\
  Returns (run_calls EOS (CallClose :: [CallSend (Some "ping")]) (fresh true healthy))
          (fun _ w1 =>
             let w2 := with_err (Some errShutdown) w1 in
             run (Send (Some "ping")) w1 = Done (Some errShutdown) w2 /\
             run (Recv EOS (Some "ping")) w1 =
             Done (Some errShutdown, Some "ping") w2 /\
             err (strm w2) = Some errShutdown /\
             trace w2 = trace w1 /\
             codec_ (strm w2) = codec_ (strm w1)).
Proof.
  split; [reflexivity |].
  apply (closed_rejects EOS (fresh true healthy) [CallSend (Some "ping")]
                        (Some "ping")).
  reflexivity.
Defined.

Lemma close_idempotent_witness :
  mu (strm (shut healthy)) = Free /\
  closed (strm (shut healthy)) = true /\
  run (Close EOS) (shut healthy) = Done None (shut healthy) /\
  run_calls EOS (repeat CallClose 3) (shut healthy) =
  Done (repeat None 3) (shut healthy).
Proof.
  split; [reflexivity |]; split; [reflexivity |].
  apply (close_idempotent EOS (shut healthy) 3); reflexivity.
Defined.

Lemma release_exactly_once_witness :
  mu (strm (fresh true broken_pipe)) = Free /\
  closed (strm (fresh true broken_pipe)) = false /\
  existsb is_close [CallSend (Some "ping"); CallRecv (Some "")] = false /\
  Returns (run_calls EOS [CallSend (Some "ping"); CallRecv (Some "")]
                     (fresh true broken_pipe))
    (fun _ w1 =>
       releases (trace w1) = releases (trace (fresh true broken_pipe)) /\
       Returns (run Error w1)
         (fun last _ =>
            Returns (run (Close EOS) w1)
              (fun _ w2 =>
                 releases (trace w2) =
                 releases (trace (fresh true broken_pipe)) ++ [last]) /\
            Returns (run_calls EOS
                       ([CallSend (Some "ping"); CallRecv (Some "")]
                          ++ repeat CallClose 3)
                       (fresh true broken_pipe))
              (fun _ w3 =>
                 releases (trace w3) =
                 releases (trace (fresh true broken_pipe)) ++ [last]))).
Proof.
  split; [reflexivity |]; split; [reflexivity |]; split; [reflexivity |].
  apply (release_exactly_once EOS (fresh true broken_pipe)
           [CallSend (Some "ping"); CallRecv (Some "")] 2); reflexivity.
Defined.

(** C4 as stated fails: the peer sends the end-of-stream string and hangs
    up.  The first [Recv] returns [io.EOF]; the second reads the codec
    again, finds the end of the input and returns [io.ErrUnexpectedEOF]. *)
Lemma sentinel_not_sticky :
  Returns (run (Recv EOS (Some "")) (fresh false eos_then_hangup))
    (fun r1 w1 =>
       fst r1 = Some io_EOF /\
       Returns (run (Recv EOS (Some "")) w1)
         (fun r2 w2 =>
            fst r2 = Some io_ErrUnexpectedEOF /\
            fst r2 <> fst r1 /\
            trace w2 = trace w1 ++ [EvReadHeader codec.Response])).
Proof.
  simpl; repeat split; discriminate.
Qed.

Lemma sentinel_then_quiet_witness :
  mu (strm (fresh false eos_then_more)) = Free /\
  closed (strm (fresh false eos_then_more)) = false /\
  codec.ReadHeader codec.Response (codec_ (strm (fresh false eos_then_more))) =
  (None, response EOS,
   mkScript [] [(None, response ""); (None, response EOS)] [] []) /\
  0 < String.length (codec.Error_ (response EOS)) /\
  codec.Error_ (response EOS) = EOS /\
  codec.ReadBody (None : option string)
                 (mkScript [] [(None, response ""); (None, response EOS)] [] []) =
  (None, None, mkScript [] [(None, response ""); (None, response EOS)] [] []) /\
  quiet EOS [Some "a"; Some "b"]
        (mkScript [] [(None, response ""); (None, response EOS)] [] []) = true /\
  Returns (run (Recv EOS (Some "")) (fresh false eos_then_more))
    (fun r w1 =>
       fst r = Some io_EOF /\ err (strm w1) = Some io_EOF /\
       Returns (run_calls EOS (map CallRecv [Some "a"; Some "b"]) w1)
         (fun es w2 =>
            es = repeat (Some io_EOF) (length [Some "a"; Some "b"]) /\
            err (strm w2) = Some io_EOF /\
            length (trace w2) =
            length (trace w1) + 2 * length [Some "a"; Some "b"])).
Proof.
  split; [reflexivity |]; split; [reflexivity |]; split; [reflexivity |].
  split; [simpl; lia |]; split; [reflexivity |]; split; [reflexivity |].
  split; [reflexivity |].
  apply (sentinel_then_quiet EOS (fresh false eos_then_more) (Some "")
           [Some "a"; Some "b"] (response EOS)
           (mkScript [] [(None, response ""); (None, response EOS)] [] [])
           (mkScript [] [(None, response ""); (None, response EOS)] [] [])
           None);
    try reflexivity.
  simpl; lia.
Defined.

(** C5 as stated fails: a [Send] fails in the codec, then a [Recv]
    succeeds in full (its header is read without error and carries no
    error string, its body is decoded without error) and returns the
    error of the [Send], not nil. *)
Lemma successful_Recv_returns_earlier_error :
  Returns (run (Send (Some "ping")) (fresh false broken_pipe))
    (fun e w1 =>
       e = Some (codecError "broken pipe") /\
       closed (strm w1) = false /\
       codec.ReadHeader codec.Response (codec_ (strm w1)) =
       (None, response "", mkScript [] [] [(None, Some "pong")] []) /\
       String.length (codec.Error_ (response "")) = 0 /\
       codec.ReadBody (Some "") (mkScript [] [] [(None, Some "pong")] []) =
       (None, Some "pong", mkScript [] [] [] []) /\
       Returns (run (Recv EOS (Some "")) w1)
         (fun r _ =>
            r = (Some (codecError "broken pipe"), Some "pong") /\
            fst r <> None)).
Proof.
  simpl; repeat split; discriminate.
Qed.

Lemma Recv_returns_last_error_witness :
  mu (strm (fresh false healthy)) = Free /\
  (Returns (run (Recv EOS (Some "")) (fresh false healthy))
           (fun r w' => fst r = err (strm w') /\ mu (strm w') = Free) /\
   (closed (strm (fresh false healthy)) = false ->
    forall (resp : codec.Message) (c c' : script) (got : option string),
      codec.ReadHeader codec.Response (codec_ (strm (fresh false healthy))) =
      (None, resp, c) ->
      String.length (codec.Error_ resp) = 0 ->
      codec.ReadBody (Some "") c = (None, got, c') ->
      Returns (run (Recv EOS (Some "")) (fresh false healthy))
              (fun r w' =>
                 fst r = err (strm (fresh false healthy)) /\ snd r = got /\
                 err (strm w') = err (strm (fresh false healthy))))).
Proof.
  split; [reflexivity |].
  apply (Recv_returns_last_error EOS (fresh false healthy) (Some "")).
  reflexivity.
Defined.

Lemma eos_on_close_witness :
  mu (strm (fresh true healthy)) = Free /\
  closed (strm (fresh true healthy)) = false /\
  Returns (run (Close EOS) (fresh true healthy))
    (fun e w' =>
       let r := strm (fresh true healthy) in
       let eos := codec.mkMessage (id r) codec.Error (Service (request r))
                                  (Method (request r)) (Endpoint (request r))
                                  EOS in
       if sendEOS r then
         let '(_, c1) := codec.Write eos (None : option string) (codec_ r) in
         let '(ce, c2) := codec.Close c1 in
         e = ce /\
         trace w' = trace (fresh true healthy)
                    ++ [EvWrite eos None; EvCodecClose; EvRelease (err r)] /\
         codec_ (strm w') = c2
       else
         let '(ce, c2) := codec.Close (codec_ r) in
         e = ce /\
         trace w' = trace (fresh true healthy)
                    ++ [EvCodecClose; EvRelease (err r)] /\
         codec_ (strm w') = c2).
Proof.
  split; [reflexivity |]; split; [reflexivity |].
  apply (eos_on_close EOS (fresh true healthy)); reflexivity.
Defined.

Lemma header_read_failure_witness :
  mu (strm (fresh false hangup)) = Free /\
  closed (strm (fresh false hangup)) = false /\
  codec.ReadHeader codec.Response (codec_ (strm (fresh false hangup))) =
  (Some io_EOF, codec.zero, hangup) /\
  let w1 := called (EvReadHeader codec.Response) hangup (fresh false hangup) in
  (io_EOF = io_EOF ->
   run (Recv EOS (Some "")) (fresh false hangup) =
   Done (Some io_ErrUnexpectedEOF, Some "")
        (with_err (Some io_ErrUnexpectedEOF) w1)) /\
  (io_EOF <> io_EOF ->
   run (Recv EOS (Some "")) (fresh false hangup) =
   Done (Some io_EOF, Some "") (with_err (Some io_EOF) w1)) /\
  (forall wl : World,
      (io_EOF = io_EOF /\ closed (strm wl) = false ->
       run (Recv_after_header EOS (Some "") (Some io_EOF, codec.zero)) wl =
       Done (Some io_ErrUnexpectedEOF, Some "")
            (with_err (Some io_ErrUnexpectedEOF) wl)) /\
      (io_EOF <> io_EOF \/ closed (strm wl) = true ->
       run (Recv_after_header EOS (Some "") (Some io_EOF, codec.zero)) wl =
       Done (Some io_EOF, Some "") (with_err (Some io_EOF) wl))).
Proof.
  split; [reflexivity |]; split; [reflexivity |]; split; [reflexivity |].
  apply (header_read_failure EOS (fresh false hangup) (Some "") io_EOF
                             codec.zero hangup); reflexivity.
Defined.

(** C8 as stated fails: the header carries the error string
    ["insufficient funds"], which is not the end-of-stream string, and the
    read that drains the body fails.  [Recv] returns the error of that
    read; the [serverError] is neither returned nor the last error. *)
Lemma remote_error_lost :
  codec.ReadHeader codec.Response
                   (codec_ (strm (fresh false remote_error_short_read))) =
  (None, response "insufficient funds",
   mkScript [] [] [(Some (codecError "short read"), None)] []) /\
  0 < String.length (codec.Error_ (response "insufficient funds")) /\
  codec.Error_ (response "insufficient funds") <> EOS /\
  Returns (run (Recv EOS (Some "")) (fresh false remote_error_short_read))
    (fun r w' =>
       fst r = Some (codecError "short read") /\
       err (strm w') = Some (codecError "short read") /\
       fst r <> Some (serverError "insufficient funds") /\
       err (strm w') <> Some (serverError "insufficient funds")).
Proof.
  simpl; repeat split; try discriminate; lia.
Qed.

Lemma remote_error_is_reported_witness :
  mu (strm (fresh false remote_error)) = Free /\
  closed (strm (fresh false remote_error)) = false /\
  codec.ReadHeader codec.Response (codec_ (strm (fresh false remote_error))) =
  (None, response "insufficient funds", mkScript [] [] [(None, None)] []) /\
  0 < String.length (codec.Error_ (response "insufficient funds")) /\
  codec.Error_ (response "insufficient funds") <> EOS /\
  codec.ReadBody (None : option string) (mkScript [] [] [(None, None)] []) =
  (None, None, mkScript [] [] [] []) /\
  Returns (run (Recv EOS (Some "")) (fresh false remote_error))
    (fun r w' =>
       let remote := Some (serverError (codec.Error_ (response "insufficient funds"))) in
       let last := match (None : error) with Some _ => None | None => remote end in
       fst r = last /\ err (strm w') = last /\ snd r = Some "" /\
       trace w' = trace (fresh false remote_error)
                  ++ [EvReadHeader codec.Response; EvReadBody None] /\
       ((None : error) = None -> fst r = remote)).
Proof.
  split; [reflexivity |]; split; [reflexivity |]; split; [reflexivity |].
  split; [simpl; lia |]; split; [discriminate |]; split; [reflexivity |].
  apply (remote_error_is_reported EOS (fresh false remote_error) (Some "")
           (response "insufficient funds")
           (mkScript [] [] [(None, None)] []) (mkScript [] [] [] [])
           None None);
    try reflexivity.
  - simpl; lia.
  - discriminate.
Defined.

(** C9 as stated fails: a failed [Send] records the error of the codec, a
    terminal error; the [Recv] that follows reads the error string
    ["insufficient funds"] and records a [serverError] over it.  That is
    an overwrite, and not the one from the end-of-stream string to
    [io.EOF]. *)
Lemma terminal_error_overwritten :
  Returns (run (Send (Some "ping")) (fresh false broken_pipe_then_remote_error))
    (fun _ w1 =>
       err (strm w1) = Some (codecError "broken pipe") /\
       err (strm w1) <> Some io_EOF /\
       Returns (run (Recv EOS (Some "")) w1)
         (fun _ w2 =>
            err (strm w2) = Some (serverError "insufficient funds") /\
            err (strm w2) <> err (strm w1) /\
            err (strm w2) <> Some io_EOF)).
Proof.
  simpl; repeat split; discriminate.
Qed.

Lemma last_error_never_cleared_witness :
  mu (strm (with_err (Some (codecError "broken pipe")) (fresh false remote_error)))
  = Free /\
  err (strm (with_err (Some (codecError "broken pipe")) (fresh false remote_error)))
  <> None /\
  (Returns (run_calls EOS [CallRecv (Some ""); CallClose]
              (with_err (Some (codecError "broken pipe")) (fresh false remote_error)))
           (fun _ w' => err (strm w') <> None) /\
   (forall c : call,
       Returns (run (perform EOS c)
                    (with_err (Some (codecError "broken pipe"))
                              (fresh false remote_error)))
               (fun e w' =>
                  err (strm w') =
                  err (strm (with_err (Some (codecError "broken pipe"))
                                      (fresh false remote_error))) \/
                  (err (strm w') = e /\ e <> None)))).
Proof.
  split; [reflexivity |]; split; [discriminate |].
  apply (last_error_never_cleared EOS
           (with_err (Some (codecError "broken pipe")) (fresh false remote_error))
           [CallRecv (Some ""); CallClose]).
  - reflexivity.
  - discriminate.
Defined.

Lemma graceful_close_releases_EOF_witness :
  mu (strm (fresh false eos_then_hangup)) = Free /\
  closed (strm (fresh false eos_then_hangup)) = false /\
  codec.ReadHeader codec.Response (codec_ (strm (fresh false eos_then_hangup))) =
  (None, response EOS, hangup) /\
  0 < String.length (codec.Error_ (response EOS)) /\
  codec.Error_ (response EOS) = EOS /\
  codec.ReadBody (None : option string) hangup = (None, None, hangup) /\
  (Returns (run_calls EOS [CallRecv (Some ""); CallClose]
                      (fresh false eos_then_hangup))
     (fun es w' =>
        releases (trace w') =
        releases (trace (fresh false eos_then_hangup)) ++ [Some io_EOF] /\
        hd None es = Some io_EOF) /\
   Some io_EOF <> (None : error) /\
   (forall (wl : World) (resp' : codec.Message),
       closed (strm wl) = true ->
       Returns (run (Recv_after_header EOS (Some "") (Some io_EOF, resp')) wl)
               (fun r wl' =>
                  fst r = Some io_EOF /\ err (strm wl') = Some io_EOF))).
Proof.
  split; [reflexivity |]; split; [reflexivity |]; split; [reflexivity |].
  split; [simpl; lia |]; split; [reflexivity |]; split; [reflexivity |].
  apply (graceful_close_releases_EOF EOS (fresh false eos_then_hangup) (Some "")
           (response EOS) hangup hangup None);
    try reflexivity.
  simpl; lia.
Defined.

(** * Two goroutines on one stream *)

(** [Close] runs while [Recv] waits for a header.  [Recv] has passed its
    test of [closed] and released the mutex (steps 1 to 3 of goroutine 0);
    [Close] marks the stream closed, writes the end-of-stream frame and
    closes the codec (7 steps of goroutine 1); the header read of [Recv]
    then reports [io.EOF], and [Recv], on taking the mutex again, finds
    the stream closed and records [io.EOF] as it is; [Close] reads it
    through [Error] and hands it to the release hook. *)
Example close_during_header_read :
  Returns (sched [0; 0; 0; 1; 1; 1; 1; 1; 1; 1; 0; 0; 0; 0; 0; 1; 1; 1; 1]
                 [perform EOS (CallRecv (Some "")); perform EOS CallClose]
                 (fresh true hangup))
    (fun ts w =>
       ts = [Ret (Some io_EOF); Ret None] /\
       mu (strm w) = Free /\
       err (strm w) = Some io_EOF /\
       releases (trace w) = [Some io_EOF]).
Proof.
  simpl; repeat split.
Qed.

(** While [Recv] holds the mutex to record the outcome of its header
    read, the [Error] call inside [Close] has to wait. *)
Example close_waits_for_Recv :
  sched [0; 0; 0; 1; 1; 1; 1; 1; 1; 1; 0; 0; 1]
        [perform EOS (CallRecv (Some "")); perform EOS CallClose]
        (fresh true hangup)
  = Blocked.
Proof.
  reflexivity.
Qed.

(** [Recv] does not hold the mutex while it waits for a header: a [Send]
    of another goroutine runs to its end in between. *)
Example Send_during_header_read :
  Returns (sched [0; 0; 0; 1; 1; 1; 1; 1; 0; 0; 0; 0; 0; 0; 0]
                 [perform EOS (CallRecv (Some "")); perform EOS (CallSend (Some "ping"))]
                 (fresh false healthy))
    (fun ts w =>
       ts = [Ret None; Ret None] /\
       mu (strm w) = Free /\
       trace w = [EvWrite (codec.mkMessage "1" codec.Request "greeter"
                                           "Greeter.Stream" "Greeter.Stream" "")
                          (Some "ping");
                  EvReadHeader codec.Response;
                  EvReadBody (Some "")]).
Proof.
  simpl; repeat split.
Qed.

(** [Send] holds the mutex from its first step to its last: a second
    [Send] cannot start in between. *)
Example Send_excludes_Send :
  sched [0; 0; 1]
        [perform EOS (CallSend (Some "a")); perform EOS (CallSend (Some "b"))]
        (fresh false healthy)
  = Blocked.
Proof.
  reflexivity.
Qed.

(** * The further properties on the canned transports *)

Lemma Send_writes_one_request_witness :
  mu (strm (fresh false broken_pipe)) = Free /\
  closed (strm (fresh false broken_pipe)) = false /\
  Returns (run (Send (Some "ping")) (fresh false broken_pipe))
    (fun e w' =>
       let r := strm (fresh false broken_pipe) in
       let req := codec.mkMessage (id r) codec.Request (Service (request r))
                                  (Method (request r)) (Endpoint (request r))
                                  "" in
       let '(we, c) := codec.Write req (Some "ping") (codec_ r) in
       e = we /\
       trace w' = trace (fresh false broken_pipe) ++ [EvWrite req (Some "ping")] /\
       codec_ (strm w') = c /\
       closed (strm w') = false /\
       err (strm w') = match we with Some _ => we | None => err r end).
Proof.
  split; [reflexivity |]; split; [reflexivity |].
  apply (Send_writes_one_request (fresh false broken_pipe) (Some "ping"));
    reflexivity.
Defined.

Lemma Recv_transport_calls_witness :
  mu (strm (fresh false healthy)) = Free /\
  closed (strm (fresh false healthy)) = false /\
  Returns (run (Recv EOS (Some "")) (fresh false healthy))
    (fun r w' =>
       let '(e, resp, c) :=
         codec.ReadHeader codec.Response (codec_ (strm (fresh false healthy))) in
       closed (strm w') = false /\
       match e with
       | Some _ =>
           trace w' = trace (fresh false healthy)
                      ++ [EvReadHeader codec.Response] /\
           snd r = Some "" /\ codec_ (strm w') = c
       | None =>
           if (0 <? String.length (codec.Error_ resp))%nat then
             trace w' = trace (fresh false healthy)
                        ++ [EvReadHeader codec.Response; EvReadBody None] /\
             snd r = Some "" /\
             codec_ (strm w') = snd (codec.ReadBody (None : option string) c)
           else
             trace w' = trace (fresh false healthy)
                        ++ [EvReadHeader codec.Response; EvReadBody (Some "")] /\
             snd r = snd (fst (codec.ReadBody (Some "") c)) /\
             codec_ (strm w') = snd (codec.ReadBody (Some "") c)
       end).
Proof.
  split; [reflexivity |]; split; [reflexivity |].
  apply (Recv_transport_calls EOS (fresh false healthy) (Some ""));
    reflexivity.
Defined.

Lemma decode_failure_reported_witness :
  mu (strm (fresh false bad_body)) = Free /\
  closed (strm (fresh false bad_body)) = false /\
  codec.ReadHeader codec.Response (codec_ (strm (fresh false bad_body))) =
  (None, response "",
   mkScript [] [] [(Some (codecError "unexpected end of JSON input"), Some "par")]
            []) /\
  String.length (codec.Error_ (response "")) = 0 /\
  codec.ReadBody (Some "")
                 (mkScript [] []
                           [(Some (codecError "unexpected end of JSON input"),
                             Some "par")] []) =
  (Some (codecError "unexpected end of JSON input"), Some "par", hangup) /\
  Returns (run (Recv EOS (Some "")) (fresh false bad_body))
    (fun r w' =>
       r = (Some (codecError "unexpected end of JSON input"), Some "par") /\
       err (strm w') = Some (codecError "unexpected end of JSON input") /\
       closed (strm w') = false /\ mu (strm w') = Free).
Proof.
  split; [reflexivity |]; split; [reflexivity |]; split; [reflexivity |].
  split; [reflexivity |]; split; [reflexivity |].
  apply (decode_failure_reported EOS (fresh false bad_body) (Some "")
           (response "")
           (mkScript [] []
                     [(Some (codecError "unexpected end of JSON input"),
                       Some "par")] [])
           hangup (codecError "unexpected end of JSON input") (Some "par"));
    reflexivity.
Defined.

Lemma calls_return_unlocked_witness :
  mu (strm (fresh true broken_pipe)) = Free /\
  Returns (run_calls EOS
             [CallSend (Some "ping"); CallRecv (Some ""); CallClose;
              CallError; CallClose]
             (fresh true broken_pipe))
    (fun es w' =>
       length es =
       length [CallSend (Some "ping"); CallRecv (Some ""); CallClose;
               CallError; CallClose] /\
       mu (strm w') = Free /\
       id (strm w') = id (strm (fresh true broken_pipe)) /\
       request (strm w') = request (strm (fresh true broken_pipe)) /\
       sendEOS (strm w') = sendEOS (strm (fresh true broken_pipe))).
Proof.
  split; [reflexivity |].
  apply (calls_return_unlocked EOS
           [CallSend (Some "ping"); CallRecv (Some ""); CallClose;
            CallError; CallClose]
           (fresh true broken_pipe)); reflexivity.
Defined.

Lemma closed_iff_Close_called_witness :
  mu (strm (fresh false broken_pipe)) = Free /\
  Returns (run_calls EOS [CallSend (Some "ping"); CallRecv (Some "")]
                     (fresh false broken_pipe))
    (fun _ w' =>
       closed (strm w') =
       closed (strm (fresh false broken_pipe))
       || existsb is_close [CallSend (Some "ping"); CallRecv (Some "")]).
Proof.
  split; [reflexivity |].
  apply (closed_iff_Close_called EOS
           [CallSend (Some "ping"); CallRecv (Some "")]
           (fresh false broken_pipe)); reflexivity.
Defined.

Lemma Close_keeps_last_error_witness :
  mu (strm (with_err (Some io_EOF) (fresh true failing_close))) = Free /\
  Returns (run (Close EOS) (with_err (Some io_EOF) (fresh true failing_close)))
    (fun _ w' =>
       err (strm w') =
       err (strm (with_err (Some io_EOF) (fresh true failing_close))) /\
       run Error w' =
       Done (err (strm (with_err (Some io_EOF) (fresh true failing_close)))) w').
Proof.
  split; [reflexivity |].
  apply (Close_keeps_last_error EOS
           (with_err (Some io_EOF) (fresh true failing_close))); reflexivity.
Defined.


Lemma Send_runs_while_Recv_waits_witness :
  mu (strm (fresh false healthy)) = Free /\
  closed (strm (fresh false healthy)) = false /\
  Returns (sched ([0; 0; 0] ++ repeat 1 6 ++ repeat 0 9)
                 [perform EOS (CallRecv (Some ""));
                  perform EOS (CallSend (Some "ping"))]
                 (fresh false healthy))
    (fun ts w' =>
       (exists e1 e2, ts = [Ret e1; Ret e2]) /\
       mu (strm w') = Free /\
       exists tail,
         trace w' =
         trace (fresh false healthy)
         ++ EvWrite (frame (strm (fresh false healthy)) codec.Request "")
                    (Some "ping")
         :: EvReadHeader codec.Response :: tail).
Proof.
  split; [reflexivity |]; split; [reflexivity |].
  apply (Send_runs_while_Recv_waits EOS (fresh false healthy) (Some "")
                                    (Some "ping")); reflexivity.
Defined.


Lemma Send_holds_mutex_through_write_witness :
  mu (strm (fresh false healthy)) = Free /\
  closed (strm (fresh false healthy)) = false /\
  1 <= 4 <= 4 /\
  sched (repeat 0 4 ++ [1])
        [perform EOS (CallSend (Some "ping")); perform EOS (CallRecv (Some ""))]
        (fresh false healthy)
  = Blocked.
Proof.
  split; [reflexivity |]; split; [reflexivity |]; split; [lia |].
  apply (Send_holds_mutex_through_write EOS (fresh false healthy)
           (Some "ping") (CallRecv (Some "")) 4);
    [reflexivity | reflexivity | lia].
Defined.

Lemma concurrent_Close_releases_once_witness :
  mu (strm (with_err (Some io_EOF) (fresh true healthy))) = Free /\
  closed (strm (with_err (Some io_EOF) (fresh true healthy))) = false /\
  match sched ([0; 0; 0; 0; 1; 1; 1; 0; 2; 2; 2; 0; 0; 0; 0; 0; 0])
              (repeat (perform EOS CallClose) 3)
              (with_err (Some io_EOF) (fresh true healthy)) with
  | Done ts w' =>
      (releases (trace w') =
       releases (trace (with_err (Some io_EOF) (fresh true healthy))) \/
       releases (trace w') =
       releases (trace (with_err (Some io_EOF) (fresh true healthy)))
       ++ [err (strm (with_err (Some io_EOF) (fresh true healthy)))]) /\
      (0 < 3 -> forallb is_Ret ts = true ->
       releases (trace w') =
       releases (trace (with_err (Some io_EOF) (fresh true healthy)))
       ++ [err (strm (with_err (Some io_EOF) (fresh true healthy)))] /\
       closed (strm w') = true /\ mu (strm w') = Free)
  | Blocked => True
  | Panic => False
  end.
Proof.
  split; [reflexivity |]; split; [reflexivity |].
  apply (concurrent_Close_releases_once EOS 3
           [0; 0; 0; 0; 1; 1; 1; 0; 2; 2; 2; 0; 0; 0; 0; 0; 0]
           (with_err (Some io_EOF) (fresh true healthy))); reflexivity.
Defined.

Lemma concurrent_Close_no_deadlock_witness :
  mu (strm (fresh true healthy)) = Free /\
  closed (strm (fresh true healthy)) = false /\
  match sched [0; 0; 0; 0; 1; 1; 0]
              (repeat (perform EOS CallClose) 3) (fresh true healthy) with
  | Done ts w' =>
      forallb is_Ret ts = true \/
      exists i p,
        nth_error ts i = Some p /\ is_Ret p = false /\
        Returns (sched [i] ts w') (fun _ _ => True)
  | Blocked => True
  | Panic => False
  end.
Proof.
  split; [reflexivity |]; split; [reflexivity |].
  apply (concurrent_Close_no_deadlock EOS 3 [0; 0; 0; 0; 1; 1; 0]
                                      (fresh true healthy)); reflexivity.
Defined.
